(** * OptiCSS: the optimization pipeline orchestrator

    A shallow embedding of [Optimizer.ts] (the [Optimizer] class, [parseCss],
    [optimizesSingleFiles], [optimizesAllFiles]) and the properties of the
    two-phase pipeline it drives.

    JavaScript objects that the orchestrator creates or receives by reference
    (option records, [StyleMapping], [SelectorCache], postcss [Result]s) live
    in an explicit heap; the orchestrator is written in a state-and-exception
    monad over that heap.  The monad also carries a trace of the calls the
    orchestrator makes; the trace is ghost state that no modelled code reads. *)

From stdpp Require Import gmap strings list fin_maps.
From Stdlib Require Import ZArith Permutation.

Set Default Proof Using "Type".

(** ** JavaScript values, errors and completion records *)

Abbreviation loc := positive (only parsing).

(** The values an option can hold.  Numbers are restricted to integers
    (there is no NaN in an option record of this program). *)
Inductive Value :=
| VUndefined
| VNull
| VBool (b : bool)
| VNumber (z : Z)
| VString (s : string)
| VRef (l : loc).

(** ToBoolean, as used by [if (x)] and [!x]. *)
Definition truthy (v : Value) : bool :=
  match v with
  | VUndefined | VNull => false
  | VBool b => b
  | VNumber z => negb (z =? 0)%Z
  | VString s => negb (String.eqb s "")
  | VRef _ => true
  end.

Record JSError := { err_name : string; err_message : string }.

(** How a call completes: normally, or by throwing (a promise: fulfilled or
    rejected). *)
Inductive Outcome (A : Type) :=
| Returned (a : A)
| Thrown (e : JSError).
Arguments Returned {A} a.
Arguments Thrown {A} e.

Definition TypeError (msg : string) : JSError :=
  {| err_name := "TypeError"; err_message := msg |}.

(** The line feed the output is joined with (["\n"] in the source). *)
Definition LF : string := String (Ascii.ascii_of_nat 10) EmptyString.

(** ** StyleMapping and SelectorCache *)

(** Modelled from the spec: the [StyleMapping] class ([./StyleMapping]) is not
    part of the sources at hand.  The spec describes it as a ledger with two
    relations, a rewrite relation from an identifier scoped by its source file
    to its replacement, and a removal/merge relation from the provenance of a
    removed selector to the survivor it was folded into; it is "created
    empty". *)
Record StyleMapping := {
  rewrites : gmap (string * string) string;
  removals : list (string * string)
}.

Definition StyleMapping_empty : StyleMapping :=
  {| rewrites := ∅; removals := [] |}.

(** Modelled from the spec: the [SelectorCache] class ([./query]) is not part
    of the sources at hand.  The spec describes it as a memo table keyed by
    normalized selector text whose entries hold the specificity tuple and the
    required tag, id, classes and attributes of the selector. *)
Record SelectorCacheEntry := {
  specificity : nat * nat * nat;
  required_tag : option string;
  required_id : option string;
  required_classes : list string;
  required_attributes : list string
}.

Record SelectorCache := { entries : gmap string SelectorCacheEntry }.

Definition SelectorCache_empty : SelectorCache := {| entries := ∅ |}.

(** ** External collaborators

    The rule tree, the source maps and the template analyses are opaque to
    the orchestrator. *)
Class ExternalTypes := {
  Root : Type;
  SourceMapGenerator : Type;
  RawSourceMap : Type;
  TemplateAnalysis : Type
}.

Section Pipeline.

Context {T : ExternalTypes}.

(** The [prev] entry of postcss' source map options: [file.sourceMap] when
    parsing, [file.content.map] when printing. *)
Inductive PrevMap :=
| PrevRaw (m : RawSourceMap)
| PrevGenerator (g : SourceMapGenerator).

Record SourceMapOptions := {
  inline : bool;
  prev : option PrevMap;
  sourcesContent : bool;
  annotation : bool
}.

Record ProcessOptions := { from : option string; process_map : SourceMapOptions }.
Record ResultOptions := { to : string; result_map : SourceMapOptions }.

(** [postcss.Result]: [root] is declared optional, the source reads it as
    [file.content.root!]. *)
Record Result := { root : option Root; map : SourceMapGenerator }.

(** What [root.toResult(opts)] gives: [result.css] and [result.map]. *)
Record Printed := { css : string; printed_map : SourceMapGenerator }.

(** [CssFile]: [content] is either raw text or an already parsed handle (a
    reference to a [Result]); [ParsedCssFile] is the same shape with the
    second kind of content, the source casts one to the other. *)
Inductive Content :=
| ContentString (s : string)
| ContentResult (r : loc).

Record CssFile := {
  content : Content;
  filename : option string;
  sourceMap : option RawSourceMap
}.

(** ** The heap *)

Inductive Obj :=
| ObjRecord (props : gmap string Value)
| ObjStyleMapping (sm : StyleMapping)
| ObjSelectorCache (c : SelectorCache)
| ObjResult (r : Result).

Abbreviation Heap := (gmap positive Obj) (only parsing).

(** A call into code the orchestrator does not own: it may read and write any
    object, and it may throw. *)
Definition Effect (A : Type) : Type := Heap → Outcome A * Heap.

(** ** Optimization passes *)

Definition SingleFileFn : Type :=
  loc → CssFile → list TemplateAnalysis → loc → Effect unit.
Definition AllFilesFn : Type :=
  loc → list CssFile → list TemplateAnalysis → loc → Effect unit.

(** A pass object.  Either method may be absent.  [opt_id] is the identity of
    the object, given to it by [new]. *)
Record Optimization := {
  opt_id : nat;
  optimizeSingleFile : option SingleFileFn;
  optimizeAllFiles : option AllFilesFn
}.

(** The body of a pass constructor: it receives the options object and gives
    the methods of the new pass. *)
Definition OptimizationClass : Type :=
  loc → Effect (option SingleFileFn * option AllFilesFn).

(** What the orchestrator imports:
    - [postcss_process]: [postcss().process(css, opts)], settled;
    - [toResult]: [root.toResult(opts)];
    - [toJSON]: [result.map.toJSON()];
    - [Concat_sourceMap]: the [sourceMap] getter of [concat-with-sourcemaps],
      from the output file name and the parts added so far;
    - [optimizations]: the table of [./optimizations], as the list of its
      entries in the order [Object.keys] enumerates them;
    - [DEFAULT_OPTIONS]: the object of that name of [./OpticssOptions]. *)
Class Collaborators := {
  postcss_process : string → ProcessOptions → Outcome Result;
  toResult : Root → ResultOptions → Printed;
  toJSON : SourceMapGenerator → RawSourceMap;
  Concat_sourceMap :
    string → list (string * string * RawSourceMap) → option RawSourceMap;
  optimizations : list (string * OptimizationClass);
  DEFAULT_OPTIONS : loc
}.

Context {E : Collaborators}.

(** ** The trace *)

Inductive Event :=
| EvNewStyleMapping (l : loc)
| EvNewSelectorCache (l : loc)
| EvConstruct (key : string) (id : nat)
| EvParse (i : nat)
| EvParsed (i : nat) (l : loc)
| EvSingleFile (id i : nat) (sm cache : loc)
| EvSingleFileDone (id i : nat)
| EvAllFiles (id : nat) (sm cache : loc)
| EvAllFilesDone (id : nat)
| EvConcatAdd (i : nat) (name text : string).

(** ** The monad *)

Record Machine := {
  heap : Heap;
  log : list Event;
  next_id : nat
}.

Definition M (A : Type) : Type := Machine → Outcome A * Machine.

Definition ret {A} (a : A) : M A := λ m, (Returned a, m).

Definition throw {A} (e : JSError) : M A := λ m, (Thrown e, m).

Definition bind {A B} (c : M A) (k : A → M B) : M B :=
  λ m, match c m with
       | (Returned a, m') => k a m'
       | (Thrown e, m') => (Thrown e, m')
       end.

Notation "'do' x <- c ;; k" := (bind c (λ x, k))
  (at level 10, x name, c at level 99, k at level 200, only parsing).
Notation "'run' c ;; k" := (bind c (λ _, k))
  (at level 10, c at level 99, k at level 200, only parsing).

(** A promise settles: the outcome of [c] is captured, not propagated. *)
Definition settle {A} (c : M A) : M (Outcome A) :=
  λ m, let '(r, m') := c m in (Returned r, m').

Definition of_outcome {A} (r : Outcome A) : M A := λ m, (r, m).

Definition emit (ev : Event) : M unit :=
  λ m, (Returned tt,
        {| heap := heap m; log := log m ++ [ev]; next_id := next_id m |}).

Definition alloc (o : Obj) : M loc :=
  λ m, let l := fresh (dom (heap m)) in
       (Returned l,
        {| heap := <[l := o]> (heap m); log := log m; next_id := next_id m |}).

Definition external {A} (f : Effect A) : M A :=
  λ m, let '(r, h) := f (heap m) in
       (r, {| heap := h; log := log m; next_id := next_id m |}).

Definition read_heap : M Heap := λ m, (Returned (heap m), m).

Definition fresh_id : M nat :=
  λ m, (Returned (next_id m),
        {| heap := heap m; log := log m; next_id := S (next_id m) |}).

(** [array.forEach(f)]. *)
Fixpoint forEach {A} (l : list A) (f : A → M unit) : M unit :=
  match l with
  | [] => ret tt
  | x :: l' => run f x ;; forEach l' f
  end.

(** ** Objects and properties *)

(** The own enumerable properties of an object.  Only plain records carry
    properties in this model. *)
Definition own_props (h : Heap) (l : loc) : gmap string Value :=
  match h !! l with
  | Some (ObjRecord p) => p
  | _ => ∅
  end.

(** [o[key]]; an absent property reads as [undefined] (properties inherited
    from [Object.prototype] are not modelled). *)
Definition get_prop (o : loc) (key : string) : M Value :=
  do h <- read_heap ;; ret (default VUndefined (own_props h o !! key)).

(** One source of [Object.assign]: every own property of [source] is written
    to [target]. *)
Definition assign_from (target source : loc) : M unit :=
  λ m, match heap m !! target with
       | Some (ObjRecord p) =>
           (Returned tt,
            {| heap := <[target := ObjRecord (own_props (heap m) source ∪ p)]> (heap m);
               log := log m; next_id := next_id m |})
       | _ => (Returned tt, m)
       end.

(** [Object.assign(target, ...sources)]: sources are copied left to right,
    so a later source wins; the target is returned. *)
Definition Object_assign (target : loc) (sources : list loc) : M loc :=
  run forEach sources (assign_from target) ;; ret target.

(** ** Capability checks *)

Definition optimizesSingleFiles (optimization : Optimization) : bool :=
  match optimizeSingleFile optimization with
  | Some _ => true
  | None => false
  end.

Definition optimizesAllFiles (optimization : Optimization) : bool :=
  match optimizeAllFiles optimization with
  | Some _ => true
  | None => false
  end.

(** ** The Optimizer *)

Record Optimizer := {
  sources : list CssFile;
  analyses : list TemplateAnalysis;
  options : loc;
  singleFileOptimizations : list Optimization;
  multiFileOptimizations : list Optimization
}.

(** [new Optimization(this.options)]. *)
Definition new_Optimization (key : string) (C : OptimizationClass) (opts : loc)
  : M Optimization :=
  do id <- fresh_id ;;
  run emit (EvConstruct key id) ;;
  do methods <- external (C opts) ;;
  ret {| opt_id := id;
         optimizeSingleFile := methods.1;
         optimizeAllFiles := methods.2 |}.

(** The body of the [forEach] over [Object.keys(optimizations)]; the two
    arrays being pushed to are threaded through. *)
Fixpoint instantiate (opts : loc) (table : list (string * OptimizationClass))
  (single multi : list Optimization) : M (list Optimization * list Optimization) :=
  match table with
  | [] => ret (single, multi)
  | (opt, C) :: table' =>
      do v <- get_prop opts opt ;;
      if truthy v then
        do optimization <- new_Optimization opt C opts ;;
        let single' := if optimizesSingleFiles optimization
                       then single ++ [optimization] else single in
        let multi' := if optimizesAllFiles optimization
                      then multi ++ [optimization] else multi in
        instantiate opts table' single' multi'
      else instantiate opts table' single multi
  end.

Definition Optimizer_constructor (supplied : loc) : M Optimizer :=
  do target <- alloc (ObjRecord ∅) ;;
  do opts <- Object_assign target [DEFAULT_OPTIONS; supplied] ;;
  do enabled <- get_prop opts "enabled" ;;
  if negb (truthy enabled) then
    ret {| sources := []; analyses := []; options := opts;
           singleFileOptimizations := []; multiFileOptimizations := [] |}
  else
    do groups <- instantiate opts optimizations [] [] ;;
    ret {| sources := []; analyses := []; options := opts;
           singleFileOptimizations := groups.1;
           multiFileOptimizations := groups.2 |}.

Definition addSource (self : Optimizer) (file : CssFile) : Optimizer :=
  {| sources := sources self ++ [file]; analyses := analyses self;
     options := options self;
     singleFileOptimizations := singleFileOptimizations self;
     multiFileOptimizations := multiFileOptimizations self |}.

Definition addAnalysis (self : Optimizer) (analysis : TemplateAnalysis) : Optimizer :=
  {| sources := sources self; analyses := analyses self ++ [analysis];
     options := options self;
     singleFileOptimizations := singleFileOptimizations self;
     multiFileOptimizations := multiFileOptimizations self |}.

(** ** Parsing

    [processOpts_for] is the [processOpts] object [parseCss] builds for a
    file, [resultOpts_for] the [resultOpts] object [optimize] builds for a
    parsed file.  The [i] of [parseCss] is the position of the source in
    [this.sources]; it only labels the trace. *)
Definition processOpts_for (file : CssFile) : ProcessOptions :=
  let sourceMapOptions :=
    {| inline := false; prev := PrevRaw <$> sourceMap file;
       sourcesContent := true; annotation := false |} in
  {| from := filename file; process_map := sourceMapOptions |}.

Definition resultOpts_for (outputFilename : string) (res : Result) : ResultOptions :=
  {| to := outputFilename;
     result_map :=
       {| inline := false; prev := Some (PrevGenerator (map res));
          sourcesContent := true; annotation := false |} |}.

Definition parseCss (i : nat) (file : CssFile) : M CssFile :=
  match content file with
  | ContentString text =>
      let processOpts := processOpts_for file in
      run emit (EvParse i) ;;
      do result <- of_outcome (postcss_process text processOpts) ;;
      do r <- alloc (ObjResult result) ;;
      run emit (EvParsed i r) ;;
      ret {| content := ContentResult r; filename := filename file;
             sourceMap := None |}
  | ContentResult _ => ret file
  end.

(** ** Phase 1: one file *)

Definition call_optimizeSingleFile (styleMapping : loc) (i : nat) (file : CssFile)
  (analyses : list TemplateAnalysis) (cache : loc) (optimization : Optimization)
  : M unit :=
  match optimizeSingleFile optimization with
  | Some f =>
      run emit (EvSingleFile (opt_id optimization) i styleMapping cache) ;;
      run external (f styleMapping file analyses cache) ;;
      emit (EvSingleFileDone (opt_id optimization) i)
  | None => throw (TypeError "optimization.optimizeSingleFile is not a function")
  end.

Definition Optimizer_optimizeSingleFile (self : Optimizer) (styleMapping : loc)
  (i : nat) (source : CssFile) (cache : loc) : M CssFile :=
  do file <- parseCss i source ;;
  run forEach (singleFileOptimizations self)
        (call_optimizeSingleFile styleMapping i file (analyses self) cache) ;;
  ret file.

(** ** Phase 2: all files *)

Definition call_optimizeAllFiles (styleMapping : loc) (files : list CssFile)
  (analyses : list TemplateAnalysis) (cache : loc) (optimization : Optimization)
  : M unit :=
  match optimizeAllFiles optimization with
  | Some f =>
      run emit (EvAllFiles (opt_id optimization) styleMapping cache) ;;
      run external (f styleMapping files analyses cache) ;;
      emit (EvAllFilesDone (opt_id optimization))
  | None => throw (TypeError "optimization.optimizeAllFiles is not a function")
  end.

Definition Optimizer_optimizeAllFiles (self : Optimizer) (styleMapping : loc)
  (files : list CssFile) (cache : loc) : M (list CssFile) :=
  run forEach (multiFileOptimizations self)
        (call_optimizeAllFiles styleMapping files (analyses self) cache) ;;
  ret files.

(** ** Promises

    The promise of a source is the suspended computation
    [Optimizer_optimizeSingleFile]; it runs to completion when the promise
    settles ([then] callbacks are not interleaved with each other, and the
    work of the parser, which touches none of the shared objects, is placed
    where its result becomes available).  In which order the promises of the
    sources settle is up to the event loop: [choices] resolves it.  At each
    step the pending promise at position [hd 0 choices mod length pending]
    settles.  A rejection does not stop the other promises from settling.
    The fuel of [settle_all] is the number of pending promises. *)
Definition pick (choices : list nat) (n : nat) : nat := hd 0 choices `mod` n.

Fixpoint settle_all {A} (fuel : nat) (choices : list nat)
  (pending : list (nat * M A)) : M (list (nat * Outcome A)) :=
  match fuel with
  | 0 => ret []
  | S fuel' =>
      let k := pick choices (length pending) in
      match pending !! k with
      | None => ret []
      | Some (i, task) =>
          do r <- settle task ;;
          do rest <- settle_all fuel' (tail choices) (delete k pending) ;;
          ret ((i, r) :: rest)
      end
  end.

(** The reason of the first promise that rejected, in settling order. *)
Fixpoint first_rejection {A} (settled : list (nat * Outcome A)) : option JSError :=
  match settled with
  | [] => None
  | (_, Thrown e) :: _ => Some e
  | (_, Returned _) :: settled' => first_rejection settled'
  end.

(** The value of promise [i], when it fulfilled. *)
Fixpoint fulfilled_at {A} (settled : list (nat * Outcome A)) (i : nat) : option A :=
  match settled with
  | [] => None
  | (j, r) :: settled' =>
      if decide (j = i)
      then match r with Returned a => Some a | Thrown _ => None end
      else fulfilled_at settled' i
  end.

(** [Promise.all]: rejects with the first rejection, otherwise fulfills with
    the values in the order of the promises, whatever order they settled
    in. *)
Definition Promise_all {A} (n : nat) (settled : list (nat * Outcome A)) : M (list A) :=
  match first_rejection settled with
  | Some e => throw e
  | None => ret (omap (fulfilled_at settled) (seq 0 n))
  end.

(** ** concat-with-sourcemaps

    [add] pushes the separator before every part but the first; [content]
    is the concatenation of the pushed parts. *)
Record Concat := {
  sourceMapping : bool;
  fileName : string;
  separator : string;
  contentParts : list string;
  added : list (string * string * RawSourceMap)
}.

Definition Concat_new (generateSourceMap : bool) (fileName separator : string)
  : Concat :=
  {| sourceMapping := generateSourceMap;
     fileName := fileName; separator := separator;
     contentParts := []; added := [] |}.

Definition Concat_add (self : Concat) (filePath text : string)
  (sourceMap : RawSourceMap) : Concat :=
  {| sourceMapping := sourceMapping self;
     fileName := fileName self; separator := separator self;
     contentParts :=
       match contentParts self with
       | [] => [text]
       | _ => contentParts self ++ [separator self; text]
       end;
     added := added self ++ [(filePath, text, sourceMap)] |}.

Definition Concat_content (self : Concat) : string :=
  String.concat "" (contentParts self).

(** ** optimize *)

Record OptimizationResult := {
  output : CssFile;
  styleMapping : loc
}.

Definition new_StyleMapping : M loc :=
  do l <- alloc (ObjStyleMapping StyleMapping_empty) ;;
  run emit (EvNewStyleMapping l) ;;
  ret l.

Definition new_SelectorCache : M loc :=
  do l <- alloc (ObjSelectorCache SelectorCache_empty) ;;
  run emit (EvNewSelectorCache l) ;;
  ret l.

(** [file.filename || "optimized.css"]. *)
Definition filename_or (name : option string) (fallback : string) : string :=
  match name with
  | Some s => if String.eqb s "" then fallback else s
  | None => fallback
  end.

(** The body of [files.forEach] in [optimize], for the file at position
    [i]. *)
Definition add_file (outputFilename : string) (i : nat) (output : Concat)
  (file : CssFile) : M Concat :=
  do h <- read_heap ;;
  match content file with
  | ContentResult r =>
      match h !! r with
      | Some (ObjResult res) =>
          let resultOpts := resultOpts_for outputFilename res in
          match root res with
          | Some tree =>
              let result := toResult tree resultOpts in
              let name := filename_or (filename file) "optimized.css" in
              run emit (EvConcatAdd i name (css result)) ;;
              ret (Concat_add output name (css result) (toJSON (printed_map result)))
          | None => throw (TypeError "Cannot read property 'toResult' of undefined")
          end
      | _ => throw (TypeError "Cannot read property 'toResult' of undefined")
      end
  | ContentString _ => throw (TypeError "Cannot read property 'toResult' of undefined")
  end.

Fixpoint add_files (outputFilename : string) (i : nat) (output : Concat)
  (files : list CssFile) : M Concat :=
  match files with
  | [] => ret output
  | file :: files' =>
      do output' <- add_file outputFilename i output file ;;
      add_files outputFilename (S i) output' files'
  end.

Definition Optimizer_optimize (choices : list nat) (self : Optimizer)
  (outputFilename : string) : M OptimizationResult :=
  do styleMapping <- new_StyleMapping ;;
  do cache <- new_SelectorCache ;;
  let promises :=
    imap (λ i source,
            (i, Optimizer_optimizeSingleFile self styleMapping i source cache))
         (sources self) in
  do settled <- settle_all (length promises) choices promises ;;
  do files <- Promise_all (length promises) settled ;;
  do files <- Optimizer_optimizeAllFiles self styleMapping files cache ;;
  do output <- add_files outputFilename 0 (Concat_new true outputFilename LF) files ;;
  ret {| output :=
           {| content := ContentString (Concat_content output);
              sourceMap := Concat_sourceMap outputFilename (added output);
              filename := Some outputFilename |};
         styleMapping := styleMapping |}.

(** ** Reading the trace *)

(** [m'] is [m] with the events [L] appended to its trace. *)
Definition emitted (m m' : Machine) (L : list Event) : Prop :=
  log m' = log m ++ L.

(** The phase 1 events of the file at position [i]. *)
Definition of_file (i : nat) (ev : Event) : bool :=
  match ev with
  | EvParse j | EvParsed j _ | EvSingleFile _ j _ _ | EvSingleFileDone _ j =>
      bool_decide (j = i)
  | _ => false
  end.

Definition is_phase1 (ev : Event) : bool :=
  match ev with
  | EvParse _ | EvParsed _ _ | EvSingleFile _ _ _ _ | EvSingleFileDone _ _ => true
  | _ => false
  end.

Definition is_phase2 (ev : Event) : bool :=
  match ev with
  | EvAllFiles _ _ _ | EvAllFilesDone _ => true
  | _ => false
  end.

Definition is_construct (ev : Event) : bool :=
  match ev with
  | EvConstruct _ _ => true
  | _ => false
  end.

Definition is_concat_add (ev : Event) : bool :=
  match ev with
  | EvConcatAdd _ _ _ => true
  | _ => false
  end.

Definition is_creation (ev : Event) : bool :=
  match ev with
  | EvNewStyleMapping _ | EvNewSelectorCache _ => true
  | _ => false
  end.

Definition is_pass_call (ev : Event) : bool :=
  match ev with
  | EvSingleFile _ _ _ _ | EvSingleFileDone _ _
  | EvAllFiles _ _ _ | EvAllFilesDone _ => true
  | _ => false
  end.

(** A pass call that receives [sm] as its style mapping and [cache] as its
    selector cache; events that are not pass calls pass. *)
Definition threads (sm cache : loc) (ev : Event) : Prop :=
  match ev with
  | EvSingleFile _ _ s c | EvAllFiles _ s c => s = sm ∧ c = cache
  | _ => True
  end.

(** The events of one completed pass call. *)
Definition single_events (sm cache : loc) (i : nat) (o : Optimization) : list Event :=
  [EvSingleFile (opt_id o) i sm cache; EvSingleFileDone (opt_id o) i].

Definition multi_events (sm cache : loc) (o : Optimization) : list Event :=
  [EvAllFiles (opt_id o) sm cache; EvAllFilesDone (opt_id o)].

(** The events of [parseCss] giving [file] for [source]. *)
Definition parse_events (i : nat) (source file : CssFile) : list Event :=
  match content source, content file with
  | ContentString _, ContentResult r => [EvParse i; EvParsed i r]
  | _, _ => []
  end.





(** The keys of the passes constructed in a trace, in order. *)
Definition constructed (L : list Event) : list string :=
  omap (λ ev, match ev with EvConstruct key _ => Some key | _ => None end) L.

(** [file] is what [parseCss] fulfills with for [source]. *)
Definition parsed_from (source file : CssFile) : Prop :=
  match content source with
  | ContentString text =>
      ∃ res r, postcss_process text (processOpts_for source) = Returned res ∧
               file = {| content := ContentResult r; filename := filename source;
                         sourceMap := None |}
  | ContentResult _ => file = source
  end.

(** The text [optimize] adds to the output for [file], the heap being
    [h]. *)
Definition serialized (h : Heap) (outputFilename : string) (file : CssFile)
  : option string :=
  match content file with
  | ContentResult r =>
      match h !! r with
      | Some (ObjResult res) =>
          match root res with
          | Some tree => Some (css (toResult tree (resultOpts_for outputFilename res)))
          | None => None
          end
      | _ => None
      end
  | ContentString _ => None
  end.

(** Parsing [source] and printing the tree again, no pass in between: the
    tree is the one the parser gives, or the one the handle refers to in
    [h]. *)
Definition reserialized (h : Heap) (outputFilename : string) (source : CssFile)
  : option string :=
  match content source with
  | ContentString text =>
      match postcss_process text (processOpts_for source) with
      | Returned res =>
          match root res with
          | Some tree => Some (css (toResult tree (resultOpts_for outputFilename res)))
          | None => None
          end
      | Thrown _ => None
      end
  | ContentResult _ => serialized h outputFilename source
  end.

(** Pass [o] can throw [e] when its single-file method is called (a pass
    without that method throws the type error of calling [undefined]). *)
Definition single_pass_throws (o : Optimization) (e : JSError) : Prop :=
  match optimizeSingleFile o with
  | Some f => ∃ sm file an cache h, (f sm file an cache h).1 = Thrown e
  | None => e = TypeError "optimization.optimizeSingleFile is not a function"
  end.

(** Why the promise of [source] rejects with [e]: the parser rejected the
    text with [e], or a single-file pass threw [e]. *)
Definition rejected_by (self : Optimizer) (source : CssFile) (e : JSError) : Prop :=
  (∃ text, content source = ContentString text ∧
           postcss_process text (processOpts_for source) = Thrown e) ∨
  (∃ o, o ∈ singleFileOptimizations self ∧ single_pass_throws o e).

(** An event of phase 1 for file [i] whose pass calls receive [sm] and
    [cache]. *)
Definition phase1_event (sm cache : loc) (i : nat) (ev : Event) : Prop :=
  of_file i ev = true ∧ threads sm cache ev.

(** The parts [Concat] has pushed after adding [chunks] in turn. *)
Definition pushed_parts (sep : string) (chunks : list string) : list string :=
  match chunks with
  | [] => []
  | c :: chunks' => c :: flat_map (λ x, [sep; x]) chunks'
  end.

(** An event of phase 2 whose pass call receives [sm] and [cache]. *)
Definition phase2_event (sm cache : loc) (ev : Event) : Prop :=
  is_phase2 ev = true ∧ threads sm cache ev.

(** The events of adding [files] to the output, the first being at position
    [i]. *)
Fixpoint add_events (h : Heap) (outputFilename : string) (i : nat)
  (files : list CssFile) : list Event :=
  match files with
  | [] => []
  | file :: files' =>
      match serialized h outputFilename file with
      | Some text =>
          EvConcatAdd i (filename_or (filename file) "optimized.css") text
          :: add_events h outputFilename (S i) files'
      | None => []
      end
  end.

(** The result [optimize] returns when the output is [output] and the
    style mapping [sm]. *)
Definition result_of (outputFilename : string) (sm : loc) (output : Concat)
  : OptimizationResult :=
  {| output :=
       {| content := ContentString (Concat_content output);
          sourceMap := Concat_sourceMap outputFilename (added output);
          filename := Some outputFilename |};
     styleMapping := sm |}.


(** No single-file pass of [self] throws. *)
Definition single_file_passes_return (self : Optimizer) : Prop :=
  ∀ o, o ∈ singleFileOptimizations self →
    ∃ f, optimizeSingleFile o = Some f ∧
         ∀ sm file an cache h, (f sm file an cache h).1 = Returned tt.

(** A call into foreign code that leaves the objects at [ls] as they are. *)
Definition preserves {A} (ls : list loc) (f : Effect A) : Prop :=
  ∀ h l, l ∈ ls → (f h).2 !! l = h !! l.

(** No pass constructor writes to the default options, to the supplied
    options or to the options object it is given. *)
Definition constructors_read_only (supplied : loc) : Prop :=
  ∀ key C o, (key, C) ∈ optimizations →
    preserves [DEFAULT_OPTIONS; supplied; o] (C o).

(** The effective value of option [key], [s] being the supplied options and
    [d] the defaults. *)
Definition effective (s d : gmap string Value) (key : string) : Value :=
  match s !! key with
  | Some v => v
  | None => default VUndefined (d !! key)
  end.

(** The keys of the optimization table that an option record enables. *)
Definition enabled_keys (p : gmap string Value) : list string :=
  if truthy (default VUndefined (p !! "enabled"))
  then List.filter (λ key, truthy (default VUndefined (p !! key)))
                   (optimizations.*1)
  else [].

(** The events a computation appends to the trace. *)
Definition trace_of {A} (c : M A) (m : Machine) : list Event :=
  drop (length (log m)) (log (c m).2).


(** What it would be for the constructor to raise a configuration error. *)
Definition raises_ConfigurationError (r : Outcome Optimizer) : Prop :=
  ∃ e, r = Thrown e ∧ err_name e = "ConfigurationError".

(** The option keys the optimizer reads. *)
Definition recognized_keys : list string := "enabled" :: optimizations.*1.

(** ** More readings of a run *)

(** No cross-file pass of [self] throws. *)
Definition multi_file_passes_return (self : Optimizer) : Prop :=
  ∀ o, o ∈ multiFileOptimizations self →
    ∃ f, optimizeAllFiles o = Some f ∧
         ∀ sm files an cache h, (f sm files an cache h).1 = Returned tt.

(** Calling the single-file method of [o] throws, whatever it is given (a
    pass without the method throws the type error of the call). *)
Definition single_pass_always_throws (o : Optimization) : Prop :=
  match optimizeSingleFile o with
  | Some f => ∀ sm file an cache h, ∃ e, (f sm file an cache h).1 = Thrown e
  | None => True
  end.

Definition multi_pass_always_throws (o : Optimization) : Prop :=
  match optimizeAllFiles o with
  | Some f => ∀ sm files an cache h, ∃ e, (f sm files an cache h).1 = Thrown e
  | None => True
  end.

(** Pass [o] can throw [e] when its cross-file method is called. *)
Definition multi_pass_throws (o : Optimization) (e : JSError) : Prop :=
  match optimizeAllFiles o with
  | Some f => ∃ sm files an cache h, (f sm files an cache h).1 = Thrown e
  | None => e = TypeError "optimization.optimizeAllFiles is not a function"
  end.

(** No pass of [self] writes to the object at [l]. *)
Definition passes_preserve (self : Optimizer) (l : loc) : Prop :=
  (∀ o f, o ∈ singleFileOptimizations self → optimizeSingleFile o = Some f →
          ∀ sm file an cache, preserves [l] (f sm file an cache)) ∧
  (∀ o f, o ∈ multiFileOptimizations self → optimizeAllFiles o = Some f →
          ∀ sm files an cache, preserves [l] (f sm files an cache)).

(** The parser accepts [source] (a parsed handle is not parsed). *)
Definition parses (source : CssFile) : Prop :=
  match content source with
  | ContentString text =>
      ∃ res, postcss_process text (processOpts_for source) = Returned res
  | ContentResult _ => True
  end.

Definition is_parser_event (ev : Event) : bool :=
  match ev with
  | EvParse _ | EvParsed _ _ => true
  | _ => false
  end.

(** What the [then] callback of [optimizeSingleFile] does for [file], the
    file at position [i]: [r] is how the promise settles, [Lc] the events of
    the callback. *)
Definition passes_run (self : Optimizer) (sm cache : loc) (i : nat)
  (file : CssFile) (r : Outcome CssFile) (Lc : list Event) : Prop :=
  Forall (λ ev, is_pass_call ev = true) Lc ∧
  match r with
  | Returned file' =>
      file' = file ∧
      Lc = flat_map (single_events sm cache i) (singleFileOptimizations self)
  | Thrown e => ∃ o, o ∈ singleFileOptimizations self ∧ single_pass_throws o e
  end ∧
  (single_file_passes_return self → ∃ file', r = Returned file') ∧
  ((∃ o, o ∈ singleFileOptimizations self ∧ single_pass_always_throws o) →
   ∃ e, r = Thrown e).

(** What the promise of [source], the source at position [i], does: [r] is
    how it settles, [Li] its events.  A string the parser rejects stops
    there; otherwise the callback runs on the parsed file. *)
Definition file_run (self : Optimizer) (sm cache : loc) (i : nat)
  (source : CssFile) (r : Outcome CssFile) (Li : list Event) : Prop :=
  match content source with
  | ContentString text =>
      match postcss_process text (processOpts_for source) with
      | Thrown e => r = Thrown e ∧ Li = [EvParse i]
      | Returned res =>
          ∃ l Lc,
            Li = EvParse i :: EvParsed i l :: Lc ∧
            passes_run self sm cache i
              {| content := ContentResult l; filename := filename source;
                 sourceMap := None |} r Lc
      end
  | ContentResult _ => passes_run self sm cache i source r Li
  end.

(** A constructor of a pass that throws whatever it is given. *)
Definition constructor_always_throws (C : OptimizationClass) : Prop :=
  ∀ o h, ∃ e, (C o h).1 = Thrown e.

End Pipeline.

(** * A small instance

    Rule trees are the text they print to; the parser rejects a lone closing
    brace.  The table has three passes: one with the single-file method only,
    one with the cross-file method only, one with both.  A pass leaves a
    comment in the trees it is given. *)

Module Demo.

Definition types : ExternalTypes :=
  {| Root := string; SourceMapGenerator := unit; RawSourceMap := unit;
     TemplateAnalysis := unit |}.

Definition CssSyntaxError : JSError :=
  {| err_name := "CssSyntaxError"; err_message := "Unexpected }" |}.

Definition parse (text : string) (opts : @ProcessOptions types)
  : Outcome (@Result types) :=
  if String.eqb text "}" then Thrown CssSyntaxError
  else Returned (@Build_Result types (Some text) tt).

Definition print (tree : string) (opts : @ResultOptions types) : @Printed types :=
  @Build_Printed types tree tt.

(** Append [note] to the tree of [file]. *)
Definition annotate (note : string) (file : @CssFile types) : @Effect types unit :=
  λ h, match content file with
       | ContentResult r =>
           match h !! r with
           | Some (ObjResult res) =>
               (Returned tt,
                <[r := ObjResult (@Build_Result types
                                    ((λ tree, tree +:+ note) <$> root res)
                                    (map res))]> h)
           | _ => (Returned tt, h)
           end
       | ContentString _ => (Returned tt, h)
       end.

Fixpoint annotate_all (note : string) (files : list (@CssFile types))
  : @Effect types unit :=
  λ h, match files with
       | [] => (Returned tt, h)
       | file :: files' => annotate_all note files' (annotate note file h).2
       end.

Definition single_method : @SingleFileFn types :=
  λ sm file analyses cache, annotate "/*1*/" file.

Definition multi_method : @AllFilesFn types :=
  λ sm files analyses cache, annotate_all "/*2*/" files.

Definition RemoveUnusedStyles : @OptimizationClass types :=
  λ opts h, (Returned (Some single_method, None), h).

Definition MergeDeclarations : @OptimizationClass types :=
  λ opts h, (Returned (None, Some multi_method), h).

Definition RewriteIdents : @OptimizationClass types :=
  λ opts h, (Returned (Some single_method, Some multi_method), h).

Definition collaborators : @Collaborators types :=
  {| postcss_process := parse;
     toResult := print;
     toJSON := λ _, tt;
     Concat_sourceMap := λ _ _, None;
     optimizations := [("removeUnusedStyles", RemoveUnusedStyles);
                       ("mergeDeclarations", MergeDeclarations);
                       ("rewriteIdents", RewriteIdents)];
     DEFAULT_OPTIONS := 1%positive |}.

Definition default_props : gmap string Value :=
  <["enabled" := VBool true]>
    (<["removeUnusedStyles" := VBool true]>
       (<["mergeDeclarations" := VBool true]>
          (<["rewriteIdents" := VBool true]> ∅))).

(** [{}], [{ enabled: false }], [{ bogus: 42, rewriteIdents: "yes" }]. *)
Definition no_props : gmap string Value := ∅.
Definition disabled_props : gmap string Value := <["enabled" := VBool false]> ∅.
Definition bogus_props : gmap string Value :=
  <["bogus" := VNumber 42]> (<["rewriteIdents" := VString "yes"]> ∅).

Definition no_options : positive := 2%positive.
Definition disabled_options : positive := 3%positive.
Definition bogus_options : positive := 4%positive.

Definition start : @Machine types :=
  {| heap := <[1%positive := ObjRecord default_props]>
               (<[no_options := ObjRecord no_props]>
                  (<[disabled_options := ObjRecord disabled_props]>
                     (<[bogus_options := ObjRecord bogus_props]> ∅)));
     log := []; next_id := 0 |}.

Definition css_file (name text : string) : @CssFile types :=
  {| content := ContentString text; filename := Some name; sourceMap := None |}.

Definition a_css : @CssFile types := css_file "a.css" "a{}".
Definition b_css : @CssFile types := css_file "b.css" "b{}".
Definition broken_css : @CssFile types := css_file "broken.css" "}".

(** The optimizer constructed with [supplied], and the machine it leaves.
    (The constructors of this table do not throw.) *)
Definition constructed_with (supplied : positive)
  : @Optimizer types * @Machine types :=
  match @Optimizer_constructor types collaborators supplied start with
  | (Returned self, m) => (self, m)
  | (Thrown _, m) =>
      ({| sources := []; analyses := []; options := supplied;
          singleFileOptimizations := []; multiFileOptimizations := [] |}, m)
  end.

(** All passes enabled by default, nothing supplied. *)
Definition all_on : @Optimizer types := (constructed_with no_options).1.
Definition after_all_on : @Machine types := (constructed_with no_options).2.

(** Optimization disabled. *)
Definition disabled : @Optimizer types := (constructed_with disabled_options).1.
Definition after_disabled : @Machine types := (constructed_with disabled_options).2.

Definition two_sources (self : @Optimizer types) : @Optimizer types :=
  addSource (addSource self a_css) b_css.

Definition three_sources (self : @Optimizer types) : @Optimizer types :=
  addSource (addSource (addSource self a_css) broken_css) b_css.

End Demo.

(** * A second instance

    The parser and the printer of the first instance, and another table: a
    pass that only reads, a pass whose single-file method throws, a pass
    whose cross-file method throws, and a pass whose constructor throws.  By
    default only the first is enabled. *)

Module Demo2.

Definition PassError : JSError :=
  {| err_name := "Error"; err_message := "pass failed" |}.

Definition lint_method : @SingleFileFn Demo.types :=
  λ sm file analyses cache h, (Returned tt, h).

Definition failing_method : @SingleFileFn Demo.types :=
  λ sm file analyses cache h, (Thrown PassError, h).

Definition failing_all_method : @AllFilesFn Demo.types :=
  λ sm files analyses cache h, (Thrown PassError, h).

Definition Lint : @OptimizationClass Demo.types :=
  λ opts h, (Returned (Some lint_method, None), h).

Definition FailsOnFile : @OptimizationClass Demo.types :=
  λ opts h, (Returned (Some failing_method, None), h).

Definition FailsOnAll : @OptimizationClass Demo.types :=
  λ opts h, (Returned (None, Some failing_all_method), h).

Definition Unbuildable : @OptimizationClass Demo.types :=
  λ opts h, (Thrown PassError, h).

Definition collaborators : @Collaborators Demo.types :=
  {| postcss_process := Demo.parse;
     toResult := Demo.print;
     toJSON := λ _, tt;
     Concat_sourceMap := λ _ _, None;
     optimizations := [("lint", Lint);
                       ("failsOnFile", FailsOnFile);
                       ("failsOnAll", FailsOnAll);
                       ("unbuildable", Unbuildable)];
     DEFAULT_OPTIONS := 1%positive |}.

Definition default_props : gmap string Value :=
  <["enabled" := VBool true]> (<["lint" := VBool true]> ∅).

(** [{}], [{ failsOnFile: true }], [{ failsOnAll: true }],
    [{ unbuildable: true }], [{ lint: 0 }]. *)
Definition no_props : gmap string Value := ∅.
Definition file_props : gmap string Value := <["failsOnFile" := VBool true]> ∅.
Definition all_props : gmap string Value := <["failsOnAll" := VBool true]> ∅.
Definition unbuildable_props : gmap string Value :=
  <["unbuildable" := VBool true]> ∅.
Definition nolint_props : gmap string Value := <["lint" := VNumber 0]> ∅.

Definition no_options : positive := 2%positive.
Definition file_options : positive := 3%positive.
Definition all_options : positive := 4%positive.
Definition unbuildable_options : positive := 5%positive.
Definition nolint_options : positive := 6%positive.

(** A tree parsed before the optimizer is made. *)
Definition parsed_tree : positive := 7%positive.

Definition start : @Machine Demo.types :=
  {| heap := <[1%positive := ObjRecord default_props]>
               (<[no_options := ObjRecord no_props]>
                  (<[file_options := ObjRecord file_props]>
                     (<[all_options := ObjRecord all_props]>
                        (<[unbuildable_options := ObjRecord unbuildable_props]>
                           (<[nolint_options := ObjRecord nolint_props]>
                              (<[parsed_tree :=
                                   ObjResult (@Build_Result Demo.types (Some "h{}") tt)]>
                                 ∅))))));
     log := []; next_id := 0 |}.

(** A source that is a handle to the parsed tree, and one that is a handle
    to what is no tree: the default options. *)
Definition handle_css : @CssFile Demo.types :=
  {| content := ContentResult parsed_tree; filename := Some "h.css";
     sourceMap := None |}.


(** The optimizer constructed with [supplied], and the machine it leaves. *)
Definition constructed_with (supplied : positive)
  : @Optimizer Demo.types * @Machine Demo.types :=
  match @Optimizer_constructor Demo.types collaborators supplied start with
  | (Returned self, m) => (self, m)
  | (Thrown _, m) =>
      ({| sources := []; analyses := []; options := supplied;
          singleFileOptimizations := []; multiFileOptimizations := [] |}, m)
  end.

Definition lint_on : @Optimizer Demo.types := (constructed_with no_options).1.
Definition after_lint_on : @Machine Demo.types := (constructed_with no_options).2.

Definition file_fails : @Optimizer Demo.types := (constructed_with file_options).1.
Definition after_file_fails : @Machine Demo.types :=
  (constructed_with file_options).2.

Definition all_fails : @Optimizer Demo.types := (constructed_with all_options).1.
Definition after_all_fails : @Machine Demo.types := (constructed_with all_options).2.

End Demo2.

(** * Properties *)

Section Properties.

Context {T : ExternalTypes} {E : Collaborators}.

(** ** The monad *)

Lemma bind_returned {A B} (c : M A) (k : A → M B) m a m1 :
  c m = (Returned a, m1) → bind c k m = k a m1.
Proof. unfold bind. by intros ->. Qed.

Lemma bind_thrown {A B} (c : M A) (k : A → M B) m e m1 :
  c m = (Thrown e, m1) → bind c k m = (Thrown e, m1).
Proof. unfold bind. by intros ->. Qed.

Lemma bind_inv {A B} (c : M A) (k : A → M B) m r m' :
  bind c k m = (r, m') →
  (∃ a m1, c m = (Returned a, m1) ∧ k a m1 = (r, m')) ∨
  (∃ e, c m = (Thrown e, m') ∧ r = Thrown e).
Proof.
  unfold bind. destruct (c m) as [[a|e] m1]; intros H.
  - left. eauto.
  - right. inversion H; subst. eauto.
Qed.

Lemma emitted_refl m : emitted m m [].
Proof. unfold emitted. by rewrite app_nil_r. Qed.

Lemma emitted_trans a b c L1 L2 :
  emitted a b L1 → emitted b c L2 → emitted a c (L1 ++ L2).
Proof. unfold emitted. intros H1 H2. by rewrite H2, H1, app_assoc. Qed.

Lemma emitted_inj a b L1 L2 : emitted a b L1 → emitted a b L2 → L1 = L2.
Proof. unfold emitted. intros H1 H2. rewrite H1 in H2. by apply app_inv_head in H2. Qed.

Lemma trace_of_emitted {A} (c : M A) m L : emitted m (c m).2 L → trace_of c m = L.
Proof. unfold emitted, trace_of. intros ->. by rewrite drop_app_length. Qed.

(** ** Promises settle in any order *)

Lemma pick_lt choices n : 0 < n → pick choices n < n.
Proof. intros. unfold pick. apply Nat.mod_upper_bound. lia. Qed.

(** Each task [i] is specified by a precondition [P i], a step relation
    [Rel i] and a postcondition [Q i]; preconditions and postconditions of a
    task are stable under the steps of the other tasks.  Then whatever the
    order, every task settles with its postcondition, and whatever is stable
    under all steps carries over. *)
Lemma settle_all_spec {A}
  (Rel : nat → Machine → Machine → Prop)
  (P : nat → Machine → Prop) (Q : nat → Outcome A → Machine → Prop) :
  (∀ i j a b, i ≠ j → P i a → Rel j a b → P i b) →
  (∀ i j r a b, i ≠ j → Q i r a → Rel j a b → Q i r b) →
  ∀ fuel choices (pending : list (nat * M A)) m,
    NoDup pending.*1 →
    length pending ≤ fuel →
    (∀ i task, (i, task) ∈ pending → P i m) →
    (∀ i task, (i, task) ∈ pending →
       ∀ m0 r m1, P i m0 → task m0 = (r, m1) → Rel i m0 m1 ∧ Q i r m1) →
    ∃ settled m',
      settle_all fuel choices pending m = (Returned settled, m') ∧
      settled.*1 ≡ₚ pending.*1 ∧
      Forall (λ ir, Q ir.1 ir.2 m') settled ∧
      (∀ X : Machine → Prop,
         (∀ j a b, j ∈ pending.*1 → X a → Rel j a b → X b) → X m → X m').
Proof.
  intros HP HQ fuel. induction fuel as [|fuel IH]; intros choices pending m Hnd Hlen Hpre Htask.
  - destruct pending; [|simpl in Hlen; lia].
    exists [], m. simpl. repeat split; auto.
  - simpl. destruct pending as [|p0 pending0] eqn:Epend.
    { exists [], m. simpl. repeat split; auto. }
    rewrite <- Epend in *.
    assert (Hk : pick choices (length pending) < length pending).
    { apply pick_lt. rewrite Epend. simpl. lia. }
    destruct (lookup_lt_is_Some_2 _ _ Hk) as [[i task] Hlk].
    rewrite Hlk.
    pose proof (delete_Permutation _ _ _ Hlk) as Hperm.
    assert (Hin : (i, task) ∈ pending) by (eapply list_elem_of_lookup_2; eauto).
    destruct (task m) as [r m1] eqn:Etask.
    destruct (Htask i task Hin m r m1 (Hpre _ _ Hin) Etask) as [Hrel Hq].
    assert (Hnd' : NoDup (i :: (delete (pick choices (length pending)) pending).*1)).
    { rewrite <- (fmap_cons fst (i, task)). by rewrite <- Hperm. }
    apply NoDup_cons in Hnd' as [Hni Hnd'].
    destruct (IH (tail choices) (delete (pick choices (length pending)) pending) m1)
      as (settled & m' & Hrun & Hp & Hall & Hframe); auto.
    { apply (f_equal length) in Epend. rewrite length_delete by eauto. simpl in *. lia. }
    { intros j tj Hj. eapply HP; [| |exact Hrel].
      - intros ->. apply Hni. apply list_elem_of_fmap. by exists (i, tj).
      - eapply Hpre. rewrite Hperm. right. exact Hj. }
    { intros j tj Hj. eapply Htask. rewrite Hperm. right. exact Hj. }
    exists ((i, r) :: settled), m'. repeat split.
    + unfold bind, settle. rewrite Etask. by rewrite Hrun.
    + rewrite Hperm. simpl. by rewrite Hp.
    + constructor; [|done]. simpl.
      apply (Hframe (Q i r)); [|done].
      intros j a b Hj Ha Hab. eapply HQ; [|exact Ha|exact Hab].
      intros ->. by apply Hni.
    + intros X HX Hm. apply Hframe.
      * intros j a b Hj. apply HX. rewrite Hperm. simpl. by right.
      * eapply HX; [|exact Hm|exact Hrel]. apply list_elem_of_fmap. by exists (i, task).
Qed.

(** Every order of the pending promises is the settling order of some
    [choices]: quantifying over [choices] covers every interleaving. *)
Lemma settle_all_any_order {A} (order : list nat) :
  ∀ pending : list (nat * M A),
    NoDup pending.*1 → order ≡ₚ pending.*1 →
    ∃ choices, ∀ m, ∃ settled m',
      settle_all (length pending) choices pending m = (Returned settled, m') ∧
      settled.*1 = order.
Proof.
  induction order as [|i order IH]; intros pending Hnd Hperm.
  - symmetry in Hperm. apply Permutation_nil_r in Hperm.
    apply fmap_nil_inv in Hperm as ->.
    exists []. intros m. by exists [], m.
  - assert (Hi : i ∈ pending.*1) by (rewrite <- Hperm; by left).
    apply list_elem_of_fmap in Hi as ([i' task] & -> & Hin).
    apply list_elem_of_lookup in Hin as [k Hk]. simpl in *.
    pose proof (fmap_Permutation fst _ _ (delete_Permutation _ _ _ Hk)) as Hdel.
    rewrite fmap_cons in Hdel. simpl in Hdel.
    assert (Hperm' : order ≡ₚ (delete k pending).*1).
    { apply (Permutation_cons_inv (a := i')). by etrans. }
    assert (Hnd' : NoDup (delete k pending).*1).
    { rewrite Hdel in Hnd. by apply NoDup_cons in Hnd as [_ ?]. }
    destruct (IH _ Hnd' Hperm') as [choices Hchoices].
    exists (k :: choices). intros m.
    pose proof (lookup_lt_Some _ _ _ Hk) as Hlt.
    destruct (length pending) as [|n] eqn:Hlen; [lia|].
    simpl. unfold pick. simpl. rewrite Hlen, Nat.mod_small by lia. rewrite Hk.
    unfold bind, settle. destruct (task m) as [r m1].
    assert (Hlen' : length (delete k pending) = n).
    { rewrite length_delete by eauto. lia. }
    destruct (Hchoices m1) as (settled & m' & Hrun & Hord).
    rewrite Hlen' in Hrun. rewrite Hrun.
    exists ((i', r) :: settled), m'. split; [done|]. rewrite fmap_cons. by f_equal.
Qed.

(** ** One file of phase 1 *)

Lemma parseCss_inv i source m r m' :
  parseCss i source m = (r, m') →
  next_id m' = next_id m ∧
  ∃ L, emitted m m' L ∧ (∀ sm cache, Forall (phase1_event sm cache i) L) ∧
    match r with
    | Returned file =>
        parsed_from source file ∧ L = parse_events i source file ∧
        match content source with
        | ContentString text =>
            ∃ res, postcss_process text (processOpts_for source) = Returned res ∧
                   content file = ContentResult (fresh (dom (heap m))) ∧
                   heap m' = <[fresh (dom (heap m)) := ObjResult res]> (heap m)
        | ContentResult _ => heap m' = heap m
        end
    | Thrown e =>
        heap m' = heap m ∧
        ∃ text, content source = ContentString text ∧
                postcss_process text (processOpts_for source) = Thrown e
    end.
Proof.
  unfold parseCss, parsed_from, parse_events.
  destruct (content source) as [text|r0] eqn:Ec.
  - unfold bind, emit, of_outcome, alloc, ret. simpl.
    destruct (postcss_process text (processOpts_for source)) as [res|e] eqn:Ep;
      simpl; intros [= <- <-]; simpl; (split; [done|]).
    + eexists. split; [unfold emitted; simpl; by rewrite <- app_assoc|].
      split.
      { intros sm cache. repeat constructor; simpl; by rewrite bool_decide_eq_true. }
      simpl. split; [eauto|]. split; [done|]. eauto.
    + eexists. split; [unfold emitted; simpl; done|].
      split.
      { intros sm cache. repeat constructor; simpl; by rewrite bool_decide_eq_true. }
      split; [done|]. eauto.
  - unfold ret. intros [= <- <-]. split; [done|].
    exists []. split; [apply emitted_refl|]. split; [intros; constructor|].
    done.
Qed.

Lemma call_optimizeSingleFile_inv sm i file an cache o m r m' :
  call_optimizeSingleFile sm i file an cache o m = (r, m') →
  next_id m' = next_id m ∧
  ∃ L, emitted m m' L ∧ Forall (phase1_event sm cache i) L ∧
    match r with
    | Returned _ => L = single_events sm cache i o
    | Thrown e => single_pass_throws o e
    end.
Proof.
  unfold call_optimizeSingleFile, single_pass_throws, single_events.
  destruct (optimizeSingleFile o) as [f|].
  - unfold bind, emit, external. simpl.
    destruct (f sm file an cache (heap m)) as [[[]|e] h] eqn:Ef;
      intros [= <- <-]; simpl; (split; [done|]).
    + eexists. split; [unfold emitted; simpl; by rewrite <- app_assoc|].
      split; [|done].
      repeat constructor; simpl; by rewrite bool_decide_eq_true.
    + eexists. split; [unfold emitted; simpl; done|].
      split.
      { repeat constructor; simpl; by rewrite bool_decide_eq_true. }
      exists sm, file, an, cache, (heap m). by rewrite Ef.
  - unfold throw. intros [= <- <-]. split; [done|].
    exists []. split; [apply emitted_refl|]. split; [constructor|done].
Qed.

Lemma forEach_single_inv sm i file an cache l m r m' :
  forEach l (call_optimizeSingleFile sm i file an cache) m = (r, m') →
  next_id m' = next_id m ∧
  ∃ L, emitted m m' L ∧ Forall (phase1_event sm cache i) L ∧
    match r with
    | Returned _ => L = flat_map (single_events sm cache i) l
    | Thrown e => ∃ o, o ∈ l ∧ single_pass_throws o e
    end.
Proof.
  revert m. induction l as [|o l IH]; intros m; simpl.
  - unfold ret. intros [= <- <-]. split; [done|].
    exists []. split; [apply emitted_refl|]. by split; [constructor|].
  - intros H. apply bind_inv in H as [(a & m1 & H1 & H)|(e & H1 & ->)].
    + apply call_optimizeSingleFile_inv in H1 as (Hid1 & L1 & He1 & Hf1 & ->).
      apply IH in H as (Hid & L & He & Hf & Hr).
      split; [congruence|].
      exists (single_events sm cache i o ++ L).
      split; [by eapply emitted_trans|].
      split; [by apply Forall_app|].
      destruct r as [|e]; [by rewrite Hr|].
      destruct Hr as (o' & Ho' & Hthrow). exists o'. split; [by right|done].
    + apply call_optimizeSingleFile_inv in H1 as (Hid1 & L1 & He1 & Hf1 & Hthrow).
      split; [done|]. exists L1. repeat split; try done.
      exists o. split; [by left|done].
Qed.

(** What one promise of phase 1 does, from any state. *)
Lemma optimizeSingleFile_inv self sm i source cache m r m' :
  Optimizer_optimizeSingleFile self sm i source cache m = (r, m') →
  next_id m' = next_id m ∧
  ∃ L, emitted m m' L ∧ Forall (phase1_event sm cache i) L ∧
    match r with
    | Returned file =>
        parsed_from source file ∧
        L = parse_events i source file ++
            flat_map (single_events sm cache i) (singleFileOptimizations self)
    | Thrown e => rejected_by self source e
    end.
Proof.
  unfold Optimizer_optimizeSingleFile. intros H.
  apply bind_inv in H as [(file & m1 & H1 & H)|(e & H1 & ->)].
  - apply parseCss_inv in H1 as (Hid1 & L1 & He1 & Hf1 & Hp & -> & _).
    apply bind_inv in H as [([] & m2 & H2 & H)|(e & H2 & ->)].
    + unfold ret in H. injection H as <- <-.
      apply forEach_single_inv in H2 as (Hid2 & L2 & He2 & Hf2 & ->).
      split; [congruence|]. eexists. split; [by eapply emitted_trans|].
      split; [apply Forall_app; split; [apply Hf1|done]|done].
    + apply forEach_single_inv in H2 as (Hid2 & L2 & He2 & Hf2 & o & Ho & Hthrow).
      split; [congruence|]. eexists. split; [by eapply emitted_trans|].
      split; [apply Forall_app; split; [apply Hf1|done]|].
      right. eauto.
  - apply parseCss_inv in H1 as (Hid1 & L1 & He1 & Hf1 & _ & Hp).
    split; [done|]. exists L1. split; [done|]. split; [apply Hf1|]. by left.
Qed.

(** ** Phase 1 *)

Local Abbreviation promises self sm cache :=
  (imap (λ i source, (i, Optimizer_optimizeSingleFile self sm i source cache))
        (sources self)).

Lemma of_file_inj i j ev : of_file i ev = true → of_file j ev = true → i = j.
Proof.
  destruct ev; simpl; try done; rewrite !bool_decide_eq_true; congruence.
Qed.

Lemma filter_of_file_other sm cache i j L :
  i ≠ j → Forall (phase1_event sm cache j) L → List.filter (of_file i) L = [].
Proof.
  intros Hij. induction 1 as [|ev L [Hev _] _ IH]; simpl; [done|].
  destruct (of_file i ev) eqn:Ei; [|done].
  destruct Hij. eauto using of_file_inj.
Qed.

Lemma filter_of_file_same sm cache i L :
  Forall (phase1_event sm cache i) L → List.filter (of_file i) L = L.
Proof.
  induction 1 as [|ev L [Hev _] _ IH]; simpl; [done|]. by rewrite Hev, IH.
Qed.

Lemma promises_indices self sm cache :
  (promises self sm cache).*1 = seq 0 (length (sources self)).
Proof.
  rewrite fmap_imap, <- (list_fmap_id (seq 0 _)), <- imap_seq_0.
  by apply imap_ext.
Qed.

(** Whatever order the promises settle in: every event of phase 1 belongs to
    one of the files and passes the two shared objects; the events of a file
    whose promise fulfilled are its parse followed by one completed call of
    every single-file pass, in the order of the group; a promise that
    rejected did so because of its own source. *)
Lemma phase1_spec self sm cache choices ms :
  ∃ settled m1 L1,
    settle_all (length (promises self sm cache)) choices (promises self sm cache) ms
      = (Returned settled, m1) ∧
    emitted ms m1 L1 ∧ next_id m1 = next_id ms ∧
    settled.*1 ≡ₚ seq 0 (length (sources self)) ∧
    Forall (λ ev, ∃ i, i < length (sources self) ∧ phase1_event sm cache i ev) L1 ∧
    Forall (λ ir, ∃ source, sources self !! ir.1 = Some source ∧
              match ir.2 with
              | Returned file =>
                  parsed_from source file ∧
                  List.filter (of_file ir.1) L1
                  = parse_events ir.1 source file ++
                    flat_map (single_events sm cache ir.1) (singleFileOptimizations self)
              | Thrown e => rejected_by self source e
              end) settled.
Proof.
  set (n := length (sources self)).
  set (Rel := λ (i : nat) (a b : Machine),
         i < n ∧ next_id b = next_id a ∧
         ∃ L, emitted a b L ∧ Forall (phase1_event sm cache i) L).
  set (P := λ (i : nat) (a : Machine),
         ∃ L, emitted ms a L ∧ List.filter (of_file i) L = []).
  set (Q := λ (i : nat) (r : Outcome CssFile) (a : Machine),
         ∃ L, emitted ms a L ∧ ∃ source, sources self !! i = Some source ∧
           match r with
           | Returned file =>
               parsed_from source file ∧
               List.filter (of_file i) L
               = parse_events i source file ++
                 flat_map (single_events sm cache i) (singleFileOptimizations self)
           | Thrown e => rejected_by self source e
           end).
  destruct (settle_all_spec (A := CssFile) Rel P Q) with
    (fuel := length (promises self sm cache)) (choices := choices)
    (pending := promises self sm cache) (m := ms)
    as (settled & m1 & Hrun & Hperm & Hall & Hframe).
  - intros i j a b Hij (L & He & Hf) (_ & _ & L' & He' & Hf').
    exists (L ++ L'). split; [by eapply emitted_trans|].
    rewrite List.filter_app, Hf. simpl. eauto using filter_of_file_other.
  - intros i j r a b Hij (L & He & src & Hsrc & Hr) (_ & _ & L' & He' & Hf').
    exists (L ++ L'). split; [by eapply emitted_trans|].
    exists src. split; [done|].
    rewrite List.filter_app, (filter_of_file_other sm cache i j L'), app_nil_r by done.
    done.
  - rewrite promises_indices. apply NoDup_seq.
  - done.
  - intros i task _. exists []. split; [apply emitted_refl|done].
  - intros i task Hin m0 r m1 (L0 & He0 & Hf0) Hrun.
    apply elem_of_lookup_imap_1 in Hin as (i' & src & [= -> ->] & Hsrc).
    apply optimizeSingleFile_inv in Hrun as (Hid & L & He & Hf & Hr).
    split.
    + split; [by eapply lookup_lt_Some|]. split; [done|]. eauto.
    + exists (L0 ++ L). split; [by eapply emitted_trans|].
      exists src. split; [done|].
      rewrite List.filter_app, Hf0, (filter_of_file_same sm cache) by done. simpl.
      destruct r; [|done]. by destruct Hr as [? ->].
  - assert (HX : next_id m1 = next_id ms ∧
                 ∃ L, emitted ms m1 L ∧
                      Forall (λ ev, ∃ i, i < n ∧ phase1_event sm cache i ev) L).
    { apply (Hframe (λ a, next_id a = next_id ms ∧
                          ∃ L, emitted ms a L ∧
                               Forall (λ ev, ∃ i, i < n ∧ phase1_event sm cache i ev) L)).
      - intros j a b _ (Hid & L & He & Hf) (Hj & Hid' & L' & He' & Hf').
        split; [congruence|]. exists (L ++ L'). split; [by eapply emitted_trans|].
        apply Forall_app. split; [done|].
        eapply Forall_impl; [exact Hf'|]. eauto.
      - split; [done|]. exists []. split; [apply emitted_refl|constructor]. }
    destruct HX as (Hid & L1 & He1 & Hf1).
    exists settled, m1, L1. repeat split; try done.
    + by rewrite Hperm, promises_indices.
    + eapply Forall_impl; [exact Hall|].
      intros [i r] (L & He & src & Hsrc & Hr). simpl in *.
      rewrite (emitted_inj _ _ _ _ He1 He). eauto.
Qed.

(** ** Promise.all *)

Lemma first_rejection_None {A} (settled : list (nat * Outcome A)) :
  first_rejection settled = None ↔ Forall (λ ir, ∃ a, ir.2 = Returned a) settled.
Proof.
  induction settled as [|[i [a|e]] settled IH]; simpl.
  - split; [constructor|done].
  - rewrite IH. split.
    + intros. constructor; simpl; eauto.
    + by inversion 1.
  - split; [done|]. inversion 1 as [|? ? [a Ha]]; done.
Qed.

Lemma first_rejection_Some {A} (settled : list (nat * Outcome A)) e :
  first_rejection settled = Some e → ∃ i, (i, Thrown e) ∈ settled.
Proof.
  induction settled as [|[i [a|e']] settled IH]; simpl; [done| |].
  - intros [j Hj]%IH. exists j. by right.
  - intros [= ->]. exists i. by left.
Qed.

(** With a single rejection among the promises, that one is the first. *)
Lemma first_rejection_only {A} (settled : list (nat * Outcome A)) i e :
  (i, Thrown e) ∈ settled →
  (∀ j e', (j, Thrown e') ∈ settled → e' = e) →
  first_rejection settled = Some e.
Proof.
  intros Hin Honly.
  destruct (first_rejection settled) as [e'|] eqn:Hf.
  - apply first_rejection_Some in Hf as [j Hj]. f_equal. eauto.
  - apply first_rejection_None in Hf.
    rewrite Forall_forall in Hf. by destruct (Hf _ Hin) as [a Ha].
Qed.

Lemma fulfilled_at_elem {A} (settled : list (nat * Outcome A)) i a :
  NoDup settled.*1 → (i, Returned a) ∈ settled → fulfilled_at settled i = Some a.
Proof.
  induction settled as [|[j r] settled IH]; simpl; [by inversion 2|].
  intros [Hj Hnd]%NoDup_cons Hin. apply elem_of_cons in Hin as [[= <- <-]|Hin].
  - by rewrite decide_True.
  - rewrite decide_False; [by apply IH|].
    intros ->. apply Hj. apply list_elem_of_fmap. by exists (i, Returned a).
Qed.

Lemma omap_total {A B} (f : A → option B) (l : list A) :
  (∀ x, x ∈ l → is_Some (f x)) →
  Forall2 (λ x y, f x = Some y) l (omap f l).
Proof.
  induction l as [|x l IH]; intros H; simpl; [constructor|].
  destruct (H x) as [y Hy]; [by left|]. rewrite Hy. constructor; [done|].
  apply IH. intros. apply H. by right.
Qed.

(** When no promise rejected, [Promise.all] fulfills with the value of
    promise [i] at position [i]. *)
Lemma Promise_all_values {A} n (settled : list (nat * Outcome A)) :
  settled.*1 ≡ₚ seq 0 n →
  first_rejection settled = None →
  length (omap (fulfilled_at settled) (seq 0 n)) = n ∧
  ∀ i, i < n → ∃ a, omap (fulfilled_at settled) (seq 0 n) !! i = Some a ∧
                    (i, Returned a) ∈ settled.
Proof.
  intros Hperm Hnone. apply first_rejection_None in Hnone. rewrite Forall_forall in Hnone.
  assert (Hnd : NoDup settled.*1) by (rewrite Hperm; apply NoDup_seq).
  assert (Hev : ∀ i, i ∈ seq 0 n → ∃ a, (i, Returned a) ∈ settled ∧
                                        fulfilled_at settled i = Some a).
  { intros i Hi. rewrite <- Hperm in Hi.
    apply list_elem_of_fmap in Hi as ([j r] & -> & Hin). simpl.
    destruct (Hnone _ Hin) as [a Ha]. simpl in Ha. rewrite Ha in Hin.
    exists a. split; [done|]. by apply fulfilled_at_elem. }
  assert (HF2 := omap_total (fulfilled_at settled) (seq 0 n)).
  specialize (HF2 (λ i Hi, ltac:(destruct (Hev i Hi) as (a & _ & ->); eauto))).
  split.
  - apply Forall2_length in HF2. by rewrite length_seq in HF2.
  - intros i Hi.
    assert (Hs : seq 0 n !! i = Some i) by (by apply lookup_seq).
    destruct (Forall2_lookup_l _ _ _ _ _ HF2 Hs) as (a & Ha & Hfa).
    exists a. split; [done|].
    destruct (Hev i) as (a' & Hin & Hfa'); [by eapply list_elem_of_lookup_2|].
    congruence.
Qed.

(** ** Phase 2 *)

Lemma call_optimizeAllFiles_inv sm files an cache o m r m' :
  call_optimizeAllFiles sm files an cache o m = (r, m') →
  next_id m' = next_id m ∧
  ∃ L, emitted m m' L ∧ Forall (phase2_event sm cache) L ∧
    match r with
    | Returned _ => L = multi_events sm cache o
    | Thrown e => True
    end.
Proof.
  unfold call_optimizeAllFiles, multi_events.
  destruct (optimizeAllFiles o) as [f|].
  - unfold bind, emit, external. simpl.
    destruct (f sm files an cache (heap m)) as [[[]|e] h] eqn:Ef;
      intros [= <- <-]; simpl; (split; [done|]).
    + eexists. split; [unfold emitted; simpl; by rewrite <- app_assoc|].
      split; [|done]. by repeat constructor.
    + eexists. split; [unfold emitted; simpl; done|].
      split; [|done]. by repeat constructor.
  - unfold throw. intros [= <- <-]. split; [done|].
    exists []. split; [apply emitted_refl|]. split; [constructor|done].
Qed.

Lemma forEach_multi_inv sm files an cache l m r m' :
  forEach l (call_optimizeAllFiles sm files an cache) m = (r, m') →
  next_id m' = next_id m ∧
  ∃ L, emitted m m' L ∧ Forall (phase2_event sm cache) L ∧
    match r with
    | Returned _ => L = flat_map (multi_events sm cache) l
    | Thrown e => True
    end.
Proof.
  revert m. induction l as [|o l IH]; intros m; simpl.
  - unfold ret. intros [= <- <-]. split; [done|].
    exists []. split; [apply emitted_refl|]. by split; [constructor|].
  - intros H. apply bind_inv in H as [(a & m1 & H1 & H)|(e & H1 & ->)].
    + apply call_optimizeAllFiles_inv in H1 as (Hid1 & L1 & He1 & Hf1 & ->).
      apply IH in H as (Hid & L & He & Hf & Hr).
      split; [congruence|].
      exists (multi_events sm cache o ++ L).
      split; [by eapply emitted_trans|].
      split; [by apply Forall_app|].
      destruct r as [|e]; [by rewrite Hr|done].
    + apply call_optimizeAllFiles_inv in H1 as (Hid1 & L1 & He1 & Hf1 & _).
      split; [done|]. eauto.
Qed.

Lemma Optimizer_optimizeAllFiles_inv self sm files cache m r m' :
  Optimizer_optimizeAllFiles self sm files cache m = (r, m') →
  next_id m' = next_id m ∧
  ∃ L, emitted m m' L ∧ Forall (phase2_event sm cache) L ∧
    match r with
    | Returned files' =>
        files' = files ∧
        L = flat_map (multi_events sm cache) (multiFileOptimizations self)
    | Thrown e => True
    end.
Proof.
  unfold Optimizer_optimizeAllFiles. intros H.
  apply bind_inv in H as [([] & m1 & H1 & H)|(e & H1 & ->)].
  - unfold ret in H. injection H as <- <-.
    apply forEach_multi_inv in H1 as (Hid & L & He & Hf & ->). eauto 10.
  - apply forEach_multi_inv in H1 as (Hid & L & He & Hf & _). eauto 10.
Qed.

(** ** Assembling the output *)

Lemma string_app_nil_r (s : string) : (s +:+ "") = s.
Proof.
  induction s as [|c s IH]; [done|].
  change (String c (s +:+ "") = String c s). by rewrite IH.
Qed.

Lemma string_app_nil_l (s : string) : ("" +:+ s) = s.
Proof. reflexivity. Qed.

Lemma concat_empty_cons (x : string) (l : list string) :
  String.concat "" (x :: l) = (x +:+ String.concat "" l).
Proof.
  destruct l as [|y l]; simpl; [by rewrite string_app_nil_r|].
  by rewrite string_app_nil_l.
Qed.

Lemma concat_pushed_parts sep chunks :
  String.concat "" (pushed_parts sep chunks) = String.concat sep chunks.
Proof.
  destruct chunks as [|c chunks]; [done|]. unfold pushed_parts.
  revert c. induction chunks as [|c' chunks IH]; intros c.
  - simpl. done.
  - rewrite concat_empty_cons. simpl flat_map.
    rewrite concat_empty_cons, IH. done.
Qed.

Lemma pushed_parts_snoc sep chunks text :
  match pushed_parts sep chunks with
  | [] => [text]
  | _ => pushed_parts sep chunks ++ [sep; text]
  end = pushed_parts sep (chunks ++ [text]).
Proof.
  destruct chunks as [|c chunks]; simpl; [done|].
  by rewrite flat_map_app.
Qed.

Lemma add_file_inv out i output file m r m' :
  add_file out i output file m = (r, m') →
  heap m' = heap m ∧ next_id m' = next_id m ∧
  match serialized (heap m) out file with
  | Some text =>
      emitted m m' [EvConcatAdd i (filename_or (filename file) "optimized.css") text] ∧
      ∃ smap, r = Returned (Concat_add output
                              (filename_or (filename file) "optimized.css") text smap)
  | None => emitted m m' [] ∧ ∃ e, r = Thrown e
  end.
Proof.
  unfold add_file, serialized, bind, read_heap, ret, throw, emit. simpl.
  destruct (content file) as [text|l].
  { intros [= <- <-]. repeat split; eauto using emitted_refl. }
  destruct (heap m !! l) as [[| | |res]|]; try destruct (root res) as [tree|];
    intros [= <- <-]; repeat split; eauto using emitted_refl.
Qed.

(** Adding the files leaves the heap alone; it succeeds exactly when every
    file serializes, and then the parts pushed are those of the texts in the
    order of the files. *)
Lemma add_files_inv out files : ∀ i output m r m',
  add_files out i output files m = (r, m') →
  heap m' = heap m ∧ next_id m' = next_id m ∧
  emitted m m' (add_events (heap m) out i files) ∧
  match r with
  | Returned output' =>
      separator output' = separator output ∧
      ∃ chunks,
        Forall2 (λ file text, serialized (heap m) out file = Some text) files chunks ∧
        ∀ before, contentParts output = pushed_parts (separator output) before →
                  contentParts output' = pushed_parts (separator output) (before ++ chunks)
  | Thrown e => ∃ file, file ∈ files ∧ serialized (heap m) out file = None
  end.
Proof.
  induction files as [|file files IH]; intros i output m r m'; simpl.
  - unfold ret. intros [= <- <-]. repeat split; [apply emitted_refl|].
    exists []. split; [constructor|]. intros before. by rewrite app_nil_r.
  - intros H. apply bind_inv in H as [(o1 & m1 & H1 & H)|(e & H1 & ->)].
    + apply add_file_inv in H1 as (Hh1 & Hid1 & H1).
      destruct (serialized (heap m) out file) as [text|] eqn:Hs;
        [|by destruct H1 as (_ & e & [=])].
      destruct H1 as (He1 & smap & [= ->]).
      apply IH in H as (Hh & Hid & He & Hr). rewrite Hh1 in *.
      split; [congruence|]. split; [congruence|].
      split; [by apply (emitted_trans _ _ _ [_] _ He1)|].
      destruct r as [output'|e].
      * destruct Hr as (Hsep & chunks & HF & Hparts). simpl in *.
        split; [done|]. exists (text :: chunks). split; [by constructor|].
        intros before Hb.
        rewrite (Hparts (before ++ [text])).
        { by rewrite <- app_assoc. }
        rewrite Hb. apply pushed_parts_snoc.
      * destruct Hr as (f & Hf & Hnone). exists f. split; [by right|done].
    + apply add_file_inv in H1 as (Hh1 & Hid1 & H1).
      destruct (serialized (heap m) out file) as [text|] eqn:Hs.
      { by destruct H1 as (_ & smap & [=]). }
      destruct H1 as (He1 & _).
      repeat split; try done. exists file. split; [by left|done].
Qed.

(** ** optimize, step by step *)

Lemma new_StyleMapping_run m :
  new_StyleMapping m
  = (Returned (fresh (dom (heap m))),
     {| heap := <[fresh (dom (heap m)) := ObjStyleMapping StyleMapping_empty]> (heap m);
        log := log m ++ [EvNewStyleMapping (fresh (dom (heap m)))];
        next_id := next_id m |}).
Proof. reflexivity. Qed.

Lemma new_SelectorCache_run m :
  new_SelectorCache m
  = (Returned (fresh (dom (heap m))),
     {| heap := <[fresh (dom (heap m)) := ObjSelectorCache SelectorCache_empty]> (heap m);
        log := log m ++ [EvNewSelectorCache (fresh (dom (heap m)))];
        next_id := next_id m |}).
Proof. reflexivity. Qed.

(** Every run of [optimize] has this shape: the two shared objects are
    created, every promise of phase 1 settles, and then either the first
    rejection is the result, or phase 2 runs on the files in source order and
    the output is assembled. *)
Lemma optimize_inv choices self out m r m' :
  Optimizer_optimize choices self out m = (r, m') →
  let sm := fresh (dom (heap m)) in
  let cache := fresh (dom (<[sm := ObjStyleMapping StyleMapping_empty]> (heap m))) in
  let n := length (sources self) in
  ∃ ms settled m1 L1,
    heap ms = <[cache := ObjSelectorCache SelectorCache_empty]>
                (<[sm := ObjStyleMapping StyleMapping_empty]> (heap m)) ∧
    emitted m ms [EvNewStyleMapping sm; EvNewSelectorCache cache] ∧
    next_id ms = next_id m ∧
    settle_all (length (promises self sm cache)) choices (promises self sm cache) ms
      = (Returned settled, m1) ∧
    emitted ms m1 L1 ∧ next_id m1 = next_id ms ∧
    settled.*1 ≡ₚ seq 0 n ∧
    Forall (λ ev, ∃ i, i < n ∧ phase1_event sm cache i ev) L1 ∧
    Forall (λ ir, ∃ source, sources self !! ir.1 = Some source ∧
              match ir.2 with
              | Returned file =>
                  parsed_from source file ∧
                  List.filter (of_file ir.1) L1
                  = parse_events ir.1 source file ++
                    flat_map (single_events sm cache ir.1) (singleFileOptimizations self)
              | Thrown e => rejected_by self source e
              end) settled ∧
    match first_rejection settled with
    | Some e => r = Thrown e ∧ m' = m1
    | None =>
        let files := omap (fulfilled_at settled) (seq 0 n) in
        ∃ r2 m2 L2,
          Optimizer_optimizeAllFiles self sm files cache m1 = (r2, m2) ∧
          emitted m1 m2 L2 ∧ next_id m2 = next_id m1 ∧
          Forall (phase2_event sm cache) L2 ∧
          match r2 with
          | Thrown e => r = Thrown e ∧ m' = m2
          | Returned _ =>
              L2 = flat_map (multi_events sm cache) (multiFileOptimizations self) ∧
              ∃ r3, add_files out 0 (Concat_new true out LF) files m2 = (r3, m') ∧
                    match r3 with
                    | Thrown e => r = Thrown e
                    | Returned output => r = Returned (result_of out sm output)
                    end
          end
    end.
Proof.
  intros H sm cache n. unfold Optimizer_optimize in H.
  apply bind_inv in H as [(sm' & ma & Hsm & H)|(e & Hsm & _)];
    rewrite new_StyleMapping_run in Hsm; [|done].
  injection Hsm as <- <-.
  apply bind_inv in H as [(cache' & mb & Hc & H)|(e & Hc & _)];
    rewrite new_SelectorCache_run in Hc; [|done].
  injection Hc as <- <-. simpl in H. fold sm in H. fold cache in H.
  match type of H with
  | bind (settle_all _ _ _) _ ?m0 = _ => set (ms := m0) in *
  end.
  destruct (phase1_spec self sm cache choices ms)
    as (settled & m1 & L1 & Hrun & He1 & Hid1 & Hperm & Hf1 & Hall).
  exists ms, settled, m1, L1.
  split; [done|]. split; [unfold emitted; simpl; by rewrite <- app_assoc|].
  split; [done|]. do 6 (split; [done|]).
  rewrite (bind_returned _ _ _ _ _ Hrun) in H.
  unfold Promise_all in H. rewrite length_imap in H. fold n in H.
  destruct (first_rejection settled) as [e|].
  { unfold bind, throw in H. by injection H as <- <-. }
  unfold bind at 1 in H. unfold ret at 1 in H.
  apply bind_inv in H as [(files2 & m2 & H2 & H)|(e & H2 & ->)].
  - pose proof H2 as H2'.
    apply Optimizer_optimizeAllFiles_inv in H2' as (Hid2 & L2 & He2 & Hf2 & -> & ->).
    eexists (Returned (omap (fulfilled_at settled) (seq 0 n))), m2, _.
    do 4 (split; [done|]). split; [done|].
    apply bind_inv in H as [(output & m3 & H3 & H)|(e & H3 & ->)].
    + unfold ret in H. injection H as <- <-. exists (Returned output). by split.
    + exists (Thrown e). by split.
  - pose proof H2 as H2'.
    apply Optimizer_optimizeAllFiles_inv in H2' as (Hid2 & L2 & He2 & Hf2 & _).
    exists (Thrown e), m', L2. by do 4 (split; [done|]).
Qed.

(** ** The trace of optimize *)

Lemma add_events_concat h out files : ∀ i,
  Forall (λ ev, is_concat_add ev = true) (add_events h out i files).
Proof.
  induction files as [|file files IH]; intros i; simpl; [constructor|].
  destruct (serialized h out file); by constructor.
Qed.

(** The trace of a run is the creation of the two shared objects, then
    events of phase 1, then events of phase 2, then additions to the output.
    When anything follows phase 1, phase 1 is complete for every file. *)
Lemma optimize_trace choices self out m r m' :
  Optimizer_optimize choices self out m = (r, m') →
  let sm := fresh (dom (heap m)) in
  let cache := fresh (dom (<[sm := ObjStyleMapping StyleMapping_empty]> (heap m))) in
  let n := length (sources self) in
  ∃ L1 L2 L3,
    emitted m m' ([EvNewStyleMapping sm; EvNewSelectorCache cache] ++ L1 ++ L2 ++ L3) ∧
    next_id m' = next_id m ∧
    Forall (λ ev, ∃ i, i < n ∧ phase1_event sm cache i ev) L1 ∧
    Forall (phase2_event sm cache) L2 ∧
    Forall (λ ev, is_concat_add ev = true) L3 ∧
    ((L2 ≠ [] ∨ L3 ≠ [] ∨ ∃ res, r = Returned res) →
       ∀ i source, sources self !! i = Some source →
         ∃ file, parsed_from source file ∧
                 List.filter (of_file i) L1
                 = parse_events i source file ++
                   flat_map (single_events sm cache i) (singleFileOptimizations self)) ∧
    (∀ res, r = Returned res →
       styleMapping res = sm ∧
       L2 = flat_map (multi_events sm cache) (multiFileOptimizations self)).
Proof.
  intros H sm cache n.
  destruct (optimize_inv _ _ _ _ _ _ H)
    as (ms & settled & m1 & L1 & Hh & He0 & Hid0 & Hrun & He1 & Hid1 & Hperm & Hf1 & Hall & Hrest).
  fold sm cache n in Hh, He0, Hrun, Hperm, Hf1, Hall, Hrest.
  assert (Hcomplete : first_rejection settled = None →
            ∀ i source, sources self !! i = Some source →
              ∃ file, parsed_from source file ∧
                      List.filter (of_file i) L1
                      = parse_events i source file ++
                        flat_map (single_events sm cache i) (singleFileOptimizations self)).
  { intros Hnone i source Hsrc.
    destruct (Promise_all_values n settled Hperm Hnone) as [_ Hval].
    destruct (Hval i) as (file & _ & Hin); [by eapply lookup_lt_Some|].
    rewrite Forall_forall in Hall. destruct (Hall _ Hin) as (source' & Hsrc' & Hq).
    simpl in *. exists file. congruence. }
  destruct (first_rejection settled) as [e|] eqn:Hrej.
  - destruct Hrest as [-> ->]. exists L1, [], [].
    split; [rewrite !app_nil_r; by eapply emitted_trans|].
    split; [congruence|]. split; [done|]. do 2 (split; [constructor|]).
    split; [|done]. intros [?|[?|[res ?]]]; done.
  - destruct Hrest as (r2 & m2 & L2 & Hrun2 & He2 & Hid2 & Hf2 & Hrest).
    destruct r2 as [files2|e].
    + destruct Hrest as (HL2 & r3 & Hrun3 & Hr).
      apply add_files_inv in Hrun3 as (_ & Hid3 & He3 & _).
      exists L1, L2, (add_events (heap m2) out 0 (omap (fulfilled_at settled) (seq 0 n))).
      split; [eauto using emitted_trans|]. split; [congruence|]. split; [done|].
      split; [done|]. split; [apply add_events_concat|].
      split; [auto|]. intros res ->. destruct r3; [|done].
      by injection Hr as ->.
    + destruct Hrest as [-> ->]. exists L1, L2, [].
      split; [rewrite app_nil_r; eauto using emitted_trans|].
      split; [congruence|]. split; [done|]. split; [done|]. split; [constructor|].
      split; [auto|done].
Qed.

(** ** parseCss *)

(** C10: a source whose content is already a parsed handle comes back from
    [parseCss] as the same file, the heap and the trace untouched (the parser
    is not called); a source whose content is a string is sent to the parser,
    and the promise settles as the parser does. *)
Theorem parseCss_handle_unchanged_string_parsed i file m :
  match content file with
  | ContentResult _ => parseCss i file m = (Returned file, m)
  | ContentString text =>
      ∃ L, emitted m (parseCss i file m).2 (EvParse i :: L) ∧
        match postcss_process text (processOpts_for file) with
        | Returned res =>
            (parseCss i file m).1
            = Returned {| content := ContentResult (fresh (dom (heap m)));
                          filename := filename file; sourceMap := None |} ∧
            heap (parseCss i file m).2
            = <[fresh (dom (heap m)) := ObjResult res]> (heap m)
        | Thrown e =>
            (parseCss i file m).1 = Thrown e ∧ heap (parseCss i file m).2 = heap m
        end
  end.
Proof.
  unfold parseCss. destruct (content file) as [text|r]; [|done].
  unfold bind, emit, of_outcome, alloc, ret, emitted. simpl.
  destruct (postcss_process text (processOpts_for file)) as [res|e]; simpl.
  - exists [EvParsed i (fresh (dom (heap m)))]. by rewrite <- app_assoc.
  - by exists [].
Qed.

(** ** Phase ordering *)

Lemma split_after {A} (P : A → Prop) (X B : list A) : ∀ pre ev post,
  Forall P X → ¬ P ev → X ++ B = pre ++ ev :: post →
  ∃ pre2, pre = X ++ pre2 ∧ B = pre2 ++ ev :: post.
Proof.
  induction X as [|x X IH]; intros pre ev post HX Hev Heq.
  - by exists pre.
  - apply Forall_cons in HX as [Hx HX].
    destruct pre as [|y pre]; simpl in Heq; injection Heq as -> Heq.
    + done.
    + destruct (IH _ _ _ HX Hev Heq) as (pre2 & -> & ->). by exists pre2.
Qed.

Lemma phase1_event_kinds sm cache i ev :
  phase1_event sm cache i ev →
  is_phase1 ev = true ∧ is_phase2 ev = false ∧ is_creation ev = false ∧
  is_construct ev = false ∧ is_concat_add ev = false.
Proof. intros [H _]. by destruct ev. Qed.

Lemma phase2_event_kinds sm cache ev :
  phase2_event sm cache ev →
  is_phase1 ev = false ∧ is_creation ev = false ∧
  is_construct ev = false ∧ is_concat_add ev = false ∧ (∀ i, of_file i ev = false).
Proof. intros [H _]. by destruct ev. Qed.

Lemma concat_add_kinds ev :
  is_concat_add ev = true →
  is_phase1 ev = false ∧ is_phase2 ev = false ∧ is_creation ev = false ∧
  is_construct ev = false ∧ (∀ sm cache, threads sm cache ev) ∧
  (∀ i, of_file i ev = false).
Proof. by destruct ev. Qed.

(** C2: in the trace of every run of [optimize], whatever the order in which
    the promises settle, a call of a cross-file pass comes only after every
    source has been parsed and every single-file pass has completed on every
    file, and no event of phase 1 follows it. *)
Theorem cross_file_passes_follow_phase1 choices self out m :
  ∃ L, emitted m (Optimizer_optimize choices self out m).2 L ∧
    ∀ pre ev post, L = pre ++ ev :: post → is_phase2 ev = true →
      (∀ i source, sources self !! i = Some source →
         (∀ text, content source = ContentString text → ∃ r, EvParsed i r ∈ pre) ∧
         (∀ o, o ∈ singleFileOptimizations self →
               EvSingleFileDone (opt_id o) i ∈ pre)) ∧
      Forall (λ ev', is_phase1 ev' = false) (ev :: post).
Proof.
  destruct (Optimizer_optimize choices self out m) as [r m'] eqn:H. simpl.
  destruct (optimize_trace _ _ _ _ _ _ H)
    as (L1 & L2 & L3 & He & _ & Hf1 & Hf2 & Hf3 & Hcomplete & _).
  eexists. split; [exact He|].
  intros pre ev post Heq Hev.
  rewrite app_assoc in Heq.
  apply (split_after (λ ev, is_phase2 ev = false)) in Heq
    as (pre2 & -> & HB); [| |by rewrite Hev].
  2:{ apply Forall_app. split; [by repeat constructor|].
      eapply Forall_impl; [exact Hf1|].
      intros ev' (i & _ & Hp). by apply phase1_event_kinds in Hp as (_ & ? & _). }
  split.
  - assert (Hne : L2 ≠ [] ∨ L3 ≠ [] ∨ ∃ res, r = Returned res).
    { destruct L2; [|by left]. destruct L3; [|by right; left].
      by destruct pre2. }
    intros i source Hsrc.
    destruct (Hcomplete Hne i source Hsrc) as (file & Hpf & Hfilter).
    assert (Hsub : ∀ ev', ev' ∈ List.filter (of_file i) L1 →
              ev' ∈ ([EvNewStyleMapping (fresh (dom (heap m)));
                      EvNewSelectorCache
                        (fresh (dom (<[fresh (dom (heap m)) :=
                                         ObjStyleMapping StyleMapping_empty]> (heap m))))]
                     ++ L1) ++ pre2).
    { intros ev' Hin. apply list_elem_of_In, List.filter_In in Hin as [Hin _].
      apply list_elem_of_In in Hin.
      apply elem_of_app. left. apply elem_of_app. by right. }
    split.
    + intros text Hc. unfold parsed_from in Hpf. rewrite Hc in Hpf.
      destruct Hpf as (res & r0 & _ & ->).
      exists r0. apply Hsub. rewrite Hfilter. unfold parse_events. rewrite Hc. simpl.
      by repeat constructor.
    + intros o Ho. apply Hsub. rewrite Hfilter.
      apply elem_of_app. right. apply list_elem_of_In, in_flat_map.
      exists o. split; [by apply list_elem_of_In|]. simpl. auto.
  - assert (HB' : Forall (λ ev', is_phase1 ev' = false) (L2 ++ L3)).
    { apply Forall_app. split.
      - eapply Forall_impl; [exact Hf2|].
        intros ev' Hp. by apply phase2_event_kinds in Hp as (? & _).
      - eapply Forall_impl; [exact Hf3|].
        intros ev' Hp. by apply concat_add_kinds in Hp as (? & _). }
    rewrite HB in HB'. by apply Forall_app in HB' as [_ ?].
Qed.

(** ** The shared objects *)


(** ** Parse failures *)




(** ** The order of the output *)




(** ** The constructor *)

Lemma forEach_assign_from_run target srcs : ∀ m,
  ∃ h, forEach srcs (assign_from target) m
       = (Returned tt, {| heap := h; log := log m; next_id := next_id m |}).
Proof.
  induction srcs as [|src srcs IH]; intros m; simpl.
  - exists (heap m). by destruct m.
  - unfold bind. destruct (assign_from target src m) as [r m1] eqn:Ha.
    assert (Hm1 : r = Returned tt ∧ log m1 = log m ∧ next_id m1 = next_id m).
    { unfold assign_from in Ha.
      destruct (heap m !! target) as [[p| | |]|]; by injection Ha as <- <-. }
    destruct Hm1 as (-> & Hlog & Hid). destruct (IH m1) as [h Hh].
    rewrite Hh, Hlog, Hid. by exists h.
Qed.

Lemma merge_options_run supplied m d s :
  heap m !! DEFAULT_OPTIONS = Some (ObjRecord d) →
  heap m !! supplied = Some (ObjRecord s) →
  bind (alloc (ObjRecord ∅))
       (λ target, Object_assign target [DEFAULT_OPTIONS; supplied]) m
  = (Returned (fresh (dom (heap m))),
     {| heap := <[fresh (dom (heap m)) := ObjRecord (s ∪ d)]> (heap m);
        log := log m; next_id := next_id m |}).
Proof.
  intros Hd Hs. set (t := fresh (dom (heap m))).
  assert (Ht : t ∉ dom (heap m)) by apply is_fresh.
  assert (Htd : t ≠ DEFAULT_OPTIONS).
  { intros ->. apply Ht. apply elem_of_dom. eauto. }
  assert (Hts : t ≠ supplied).
  { intros ->. apply Ht. apply elem_of_dom. eauto. }
  unfold bind, alloc, Object_assign. simpl. fold t.
  unfold bind, assign_from, own_props, ret. simpl.
  rewrite lookup_insert_eq. simpl.
  rewrite lookup_insert_eq, !lookup_insert_ne, Hd, Hs by done.
  rewrite !insert_insert_eq. by rewrite (right_id_L ∅ (∪) d).
Qed.

Lemma new_Optimization_inv key C opts m r m' :
  new_Optimization key C opts m = (r, m') →
  emitted m m' [EvConstruct key (next_id m)] ∧
  next_id m' = S (next_id m) ∧
  heap m' = (C opts (heap m)).2 ∧
  match r with
  | Returned o =>
      opt_id o = next_id m ∧
      ∃ methods, (C opts (heap m)).1 = Returned methods ∧
                 optimizeSingleFile o = methods.1 ∧ optimizeAllFiles o = methods.2
  | Thrown e => (C opts (heap m)).1 = Thrown e
  end.
Proof.
  unfold new_Optimization, bind, fresh_id, emit, external, ret. simpl.
  destruct (C opts (heap m)) as [[methods|e] h]; intros [= <- <-]; simpl;
    repeat split; eauto.
Qed.

(** What the loop over the table does, whatever the pass constructors do:
    the passes it registers are the instances it constructed, each with an
    identity of its own, filtered by capability. *)
Lemma instantiate_inv opts table : ∀ single multi m r m',
  instantiate opts table single multi m = (r, m') →
  next_id m ≤ next_id m' ∧
  ∃ L, emitted m m' L ∧ Forall (λ ev, is_construct ev = true) L ∧
    match r with
    | Returned groups =>
        ∃ kinsts : list (string * Optimization),
          L = (λ ko, EvConstruct ko.1 (opt_id ko.2)) <$> kinsts ∧
          groups.1 = single ++ List.filter optimizesSingleFiles kinsts.*2 ∧
          groups.2 = multi ++ List.filter optimizesAllFiles kinsts.*2 ∧
          Forall (λ o, next_id m ≤ opt_id o < next_id m') kinsts.*2 ∧
          NoDup (opt_id <$> kinsts.*2)
    | Thrown e => ∃ key C o h, (key, C) ∈ table ∧ (C o h).1 = Thrown e
    end.
Proof.
  induction table as [|[key C] table IH]; intros single multi m r m'; simpl.
  - unfold ret. intros [= <- <-]. split; [done|].
    exists []. split; [apply emitted_refl|]. split; [constructor|].
    exists []. simpl. rewrite !app_nil_r. repeat split; constructor.
  - unfold bind at 1, get_prop, bind at 1, read_heap, ret at 1.
    destruct (truthy _).
    + intros H. apply bind_inv in H as [(o & m1 & H1 & H)|(e & H1 & ->)].
      * apply new_Optimization_inv in H1 as (He1 & Hid1 & _ & Hido & _).
        apply IH in H as (Hle & L & He & Hf & Hr).
        split; [lia|]. eexists. split; [by eapply emitted_trans|].
        split; [by constructor|].
        destruct r as [groups|e].
        -- destruct Hr as (kinsts & -> & Hs & Hm & Hids & Hnd).
           exists ((key, o) :: kinsts). simpl. rewrite Hido. split; [done|].
           split. { rewrite Hs. by destruct (optimizesSingleFiles o); rewrite <- ?app_assoc. }
           split. { rewrite Hm. by destruct (optimizesAllFiles o); rewrite <- ?app_assoc. }
           split.
           ++ constructor; [lia|]. eapply Forall_impl; [exact Hids|]. simpl. lia.
           ++ apply NoDup_cons. split; [|done].
              intros Hin. apply list_elem_of_fmap in Hin as (o' & Heq & Hin).
              rewrite Forall_forall in Hids. specialize (Hids _ Hin). simpl in Hids. lia.
        -- destruct Hr as (key' & C' & o' & h & Hin & Hthrow).
           exists key', C', o', h. split; [by right|done].
      * apply new_Optimization_inv in H1 as (He1 & Hid1 & _ & Hthrow).
        split; [lia|]. eexists. split; [exact He1|]. split; [by repeat constructor|].
        exists key, C, opts, (heap m). split; [by left|done].
    + intros H. apply IH in H as (Hle & L & He & Hf & Hr).
      split; [done|]. exists L. split; [done|]. split; [done|].
      destruct r as [groups|e]; [done|].
      destruct Hr as (key' & C' & o' & h & Hin & Hthrow).
      exists key', C', o', h. split; [by right|done].
Qed.

(** When the pass constructors leave the objects at [ls] alone, the options
    object among them, the loop leaves them alone too, and it constructs
    exactly the passes whose key holds a truthy option. *)
Lemma instantiate_read_only ls opts p table :
  opts ∈ ls →
  (∀ key C, (key, C) ∈ table → preserves ls (C opts)) →
  ∀ single multi m r m',
    heap m !! opts = Some (ObjRecord p) →
    instantiate opts table single multi m = (r, m') →
    (∀ l, l ∈ ls → heap m' !! l = heap m !! l) ∧
    ∃ L, emitted m m' L ∧
      ∀ groups, r = Returned groups →
        constructed L
        = List.filter (λ key, truthy (default VUndefined (p !! key))) table.*1.
Proof.
  intros Hopts. induction table as [|[key C] table IH];
    intros Hpres single multi m r m' Hp; simpl.
  - unfold ret. intros [= <- <-]. split; [done|].
    exists []. split; [apply emitted_refl|done].
  - unfold bind at 1, get_prop, bind at 1, read_heap, ret at 1.
    unfold own_props. rewrite Hp. simpl.
    assert (Hpres' : ∀ key' C', (key', C') ∈ table → preserves ls (C' opts)).
    { intros key' C' Hin. apply (Hpres key' C'). by right. }
    destruct (truthy _).
    + intros H. apply bind_inv in H as [(o & m1 & H1 & H)|(e & H1 & ->)].
      * apply new_Optimization_inv in H1 as (He1 & _ & Hh1 & _).
        assert (Hsame : ∀ l, l ∈ ls → heap m1 !! l = heap m !! l).
        { intros l Hl. rewrite Hh1. apply (Hpres key C); [by left|done]. }
        apply IH in H as (Hh & L & He & Hr); [|done|by rewrite Hsame].
        split. { intros l Hl. rewrite Hh, Hsame; done. }
        eexists. split; [by eapply emitted_trans|].
        intros groups ->. simpl. f_equal. by apply (Hr groups).
      * apply new_Optimization_inv in H1 as (He1 & _ & Hh1 & _).
        split. { intros l Hl. rewrite Hh1. apply (Hpres key C); [by left|done]. }
        eexists. split; [exact He1|done].
    + intros H. eapply IH; eauto.
Qed.

(** The two ways through the constructor. *)
Lemma Optimizer_constructor_inv supplied m r m' :
  Optimizer_constructor supplied m = (r, m') →
  ∃ t mt,
    bind (alloc (ObjRecord ∅))
         (λ target, Object_assign target [DEFAULT_OPTIONS; supplied]) m
      = (Returned t, mt) ∧
    log mt = log m ∧ next_id mt = next_id m ∧
    if truthy (default VUndefined (own_props (heap mt) t !! "enabled")) then
      ∃ r0, instantiate t optimizations [] [] mt = (r0, m') ∧
            match r0 with
            | Returned groups =>
                r = Returned {| sources := []; analyses := []; options := t;
                                singleFileOptimizations := groups.1;
                                multiFileOptimizations := groups.2 |}
            | Thrown e => r = Thrown e
            end
    else
      r = Returned {| sources := []; analyses := []; options := t;
                      singleFileOptimizations := [];
                      multiFileOptimizations := [] |} ∧
      m' = mt.
Proof.
  unfold Optimizer_constructor. intros H.
  apply bind_inv in H as [(target & ma & Ha & H)|(e & Ha & _)]; [|done].
  apply bind_inv in H as [(opts & mt & Hassign & H)|(e & Hassign & _)].
  2:{ unfold Object_assign in Hassign.
      destruct (forEach_assign_from_run target [DEFAULT_OPTIONS; supplied] ma) as [h Hh].
      unfold bind in Hassign. by rewrite Hh in Hassign. }
  assert (Hmt : opts = target ∧ log mt = log m ∧ next_id mt = next_id m).
  { unfold Object_assign in Hassign.
    destruct (forEach_assign_from_run target [DEFAULT_OPTIONS; supplied] ma) as [h Hh].
    unfold bind in Hassign. rewrite Hh in Hassign. unfold ret in Hassign.
    injection Hassign as <- <-. unfold alloc in Ha. by injection Ha as <- <-. }
  destruct Hmt as (-> & Hlog & Hid).
  exists target, mt. split; [by rewrite (bind_returned _ _ _ _ _ Ha)|].
  split; [done|]. split; [done|].
  apply bind_inv in H as [(v & mg & Hg & H)|(e & Hg & _)]; [|done].
  unfold get_prop, bind, read_heap, ret in Hg. injection Hg as <- <-.
  destruct (truthy _); simpl in H.
  - apply bind_inv in H as [(groups & m1 & H1 & H)|(e & H1 & ->)].
    + unfold ret in H. injection H as <- <-. by exists (Returned groups).
    + by exists (Thrown e).
  - unfold ret in H. by injection H as <- <-.
Qed.

Lemma constructed_construct_events (kinsts : list (string * Optimization)) :
  constructed ((λ ko, EvConstruct ko.1 (opt_id ko.2)) <$> kinsts) = kinsts.*1.
Proof.
  unfold constructed. induction kinsts as [|ko kinsts IH]; simpl; [done|].
  by f_equal.
Qed.

(** The constructor on two option records, the constructors of the passes
    reading them only: which passes it constructs and registers, and what it
    leaves in the heap. *)
Lemma Optimizer_constructor_read_only supplied m d s r m' :
  heap m !! DEFAULT_OPTIONS = Some (ObjRecord d) →
  heap m !! supplied = Some (ObjRecord s) →
  constructors_read_only supplied →
  Optimizer_constructor supplied m = (r, m') →
  let t := fresh (dom (heap m)) in
  t ≠ DEFAULT_OPTIONS ∧ t ≠ supplied ∧
  heap m' !! DEFAULT_OPTIONS = Some (ObjRecord d) ∧
  heap m' !! supplied = Some (ObjRecord s) ∧
  heap m' !! t = Some (ObjRecord (s ∪ d)) ∧
  ∃ L, emitted m m' L ∧
    ∀ self, r = Returned self →
      options self = t ∧
      ∃ kinsts : list (string * Optimization),
        L = (λ ko, EvConstruct ko.1 (opt_id ko.2)) <$> kinsts ∧
        kinsts.*1 = enabled_keys (s ∪ d) ∧
        NoDup (opt_id <$> kinsts.*2) ∧
        singleFileOptimizations self = List.filter optimizesSingleFiles kinsts.*2 ∧
        multiFileOptimizations self = List.filter optimizesAllFiles kinsts.*2.
Proof.
  intros Hd Hs Hro H t.
  assert (Ht : t ∉ dom (heap m)) by apply is_fresh.
  assert (Htd : t ≠ DEFAULT_OPTIONS).
  { intros Heq. apply Ht. rewrite Heq. apply elem_of_dom. eauto. }
  assert (Hts : t ≠ supplied).
  { intros Heq. apply Ht. rewrite Heq. apply elem_of_dom. eauto. }
  split; [done|]. split; [done|].
  apply Optimizer_constructor_inv in H as (t' & mt & Hmerge & Hlog & Hid & H).
  rewrite (merge_options_run _ _ _ _ Hd Hs) in Hmerge. fold t in Hmerge.
  injection Hmerge as <- <-. simpl in H.
  unfold own_props in H. rewrite lookup_insert_eq in H.
  unfold enabled_keys.
  destruct (truthy (default VUndefined ((s ∪ d) !! "enabled"))).
  - destruct H as (r0 & Hinst & Hr).
    pose proof Hinst as Hinst'.
    apply (instantiate_read_only [DEFAULT_OPTIONS; supplied; t] t (s ∪ d)) in Hinst'
      as (Hsame & L & He & Hkeys).
    2:{ set_solver. }
    2:{ intros key C Hin. by apply (Hro key C t). }
    2:{ simpl. apply lookup_insert_eq. }
    simpl in Hsame.
    rewrite !Hsame, lookup_insert_eq, !lookup_insert_ne by (done || set_solver).
    do 3 (split; [done|]).
    exists L. split; [done|]. intros self ->.
    destruct r0 as [groups|e]; [|done]. injection Hr as ->. simpl.
    split; [done|].
    apply instantiate_inv in Hinst as (_ & L' & He' & _ & kinsts & -> & Hsi & Hmu & _ & Hnd).
    rewrite (emitted_inj _ _ _ _ He He') in *.
    exists kinsts. split; [done|].
    split; [by rewrite <- constructed_construct_events, (Hkeys groups)|].
    by split.
  - destruct H as [-> ->]. simpl.
    rewrite lookup_insert_eq, !lookup_insert_ne by done.
    do 3 (split; [done|]).
    exists []. split; [unfold emitted; simpl; by rewrite app_nil_r|].
    intros self [= <-]. simpl.
    split; [done|]. exists []. simpl. repeat split; constructor.
Qed.

(** C9: the options object of the optimizer is a new object that holds, for
    every key the supplied options have, the supplied value, and for every
    other key what the default options hold for it; the constructor decides
    what to construct from these values; and when it is done the supplied
    options and the default options are what they were (pass constructors
    being given the new object, and assumed not to write to the three). *)
Theorem options_merged_over_defaults supplied m d s r m' :
  heap m !! DEFAULT_OPTIONS = Some (ObjRecord d) →
  heap m !! supplied = Some (ObjRecord s) →
  constructors_read_only supplied →
  Optimizer_constructor supplied m = (r, m') →
  heap m' !! DEFAULT_OPTIONS = Some (ObjRecord d) ∧
  heap m' !! supplied = Some (ObjRecord s) ∧
  ∀ self, r = Returned self →
    options self ≠ DEFAULT_OPTIONS ∧ options self ≠ supplied ∧
    ∃ p, heap m' !! options self = Some (ObjRecord p) ∧
         (∀ key, p !! key = match s !! key with
                            | Some v => Some v
                            | None => d !! key
                            end) ∧
         ∃ L, emitted m m' L ∧ constructed L = enabled_keys p.
Proof.
  intros Hd Hs Hro H.
  destruct (Optimizer_constructor_read_only _ _ _ _ _ _ Hd Hs Hro H)
    as (Htd & Hts & Hd' & Hs' & Ht & L & He & Hself).
  split; [done|]. split; [done|]. intros self ->.
  destruct (Hself self eq_refl) as (-> & kinsts & -> & Hkeys & _).
  split; [done|]. split; [done|].
  exists (s ∪ d). split; [done|]. split.
  - intros key. rewrite lookup_union.
    by destruct (s !! key), (d !! key).
  - eexists. split; [exact He|]. by rewrite constructed_construct_events.
Qed.

(** C6, as the code has it: the constructor validates nothing and raises no
    error of its own.  For every options object, whatever keys and values it
    holds, it returns an optimizer, unless the constructor of a pass throws,
    and then that error is what it throws. *)
Theorem constructor_raises_no_error_of_its_own supplied m :
  (∃ self m', Optimizer_constructor supplied m = (Returned self, m')) ∨
  (∃ e m' key C o h,
     Optimizer_constructor supplied m = (Thrown e, m') ∧
     (key, C) ∈ optimizations ∧ (C o h).1 = Thrown e).
Proof.
  destruct (Optimizer_constructor supplied m) as [[self|e] m'] eqn:H; [eauto|].
  right. apply Optimizer_constructor_inv in H as (t & mt & _ & _ & _ & H).
  destruct (truthy _).
  - destruct H as (r0 & Hinst & Hr).
    destruct r0 as [groups|e']; [done|]. injection Hr as ->.
    apply instantiate_inv in Hinst as (_ & L & _ & _ & key & C & o & h & Hin & Hthrow).
    exists e', m', key, C, o, h. eauto.
  - by destruct H.
Qed.


(** ** Counting pass calls *)



Lemma filter_none {A} (f : A → bool) (l : list A) :
  Forall (λ x, f x = false) l → List.filter f l = [].
Proof. induction 1 as [|x l Hx _ IH]; simpl; [done|]. by rewrite Hx. Qed.







(** ** Registration by capability *)


(** ** Optimization disabled *)

Lemma serialized_weaken h h' out file text :
  h ⊆ h' → serialized h out file = Some text → serialized h' out file = Some text.
Proof.
  intros Hsub. unfold serialized. destruct (content file) as [|r]; [done|].
  destruct (h !! r) as [o|] eqn:Hr; [|done].
  by rewrite (lookup_weaken _ _ _ _ Hr Hsub).
Qed.

Lemma insert_fresh_subseteq (h : gmap positive Obj) (o : Obj) :
  h ⊆ <[fresh (dom h) := o]> h.
Proof. apply insert_subseteq, not_elem_of_dom, is_fresh. Qed.

(** Without single-file passes, phase 1 only adds the parsed trees to the
    heap: every source that reserializes in the heap [h0] of the start
    fulfills with a file that serializes to the same text. *)
Lemma phase1_no_passes self sm cache choices out ms settled m1 :
  singleFileOptimizations self = [] →
  settle_all (length (promises self sm cache)) choices (promises self sm cache) ms
    = (Returned settled, m1) →
  heap ms ⊆ heap m1 ∧
  Forall (λ ir, ∃ source, sources self !! ir.1 = Some source ∧
            ∀ text, reserialized (heap ms) out source = Some text →
              ∃ file, ir.2 = Returned file ∧
                      serialized (heap m1) out file = Some text) settled.
Proof.
  intros Hno Hrun.
  set (Rel := λ (i : nat) (a b : Machine), heap a ⊆ heap b).
  set (P := λ (i : nat) (a : Machine), heap ms ⊆ heap a).
  set (Q := λ (i : nat) (r : Outcome CssFile) (a : Machine),
         ∃ source, sources self !! i = Some source ∧
           ∀ text, reserialized (heap ms) out source = Some text →
             ∃ file, r = Returned file ∧ serialized (heap a) out file = Some text).
  destruct (settle_all_spec (A := CssFile) Rel P Q) with
    (fuel := length (promises self sm cache)) (choices := choices)
    (pending := promises self sm cache) (m := ms)
    as (settled' & m1' & Hrun' & _ & Hall & Hframe).
  - intros i j a b _ Ha Hab. unfold P, Rel in *. by etrans.
  - intros i j r a b _ (source & Hsrc & Hq) Hab. exists source. split; [done|].
    intros text Htext. destruct (Hq text Htext) as (file & -> & Hs).
    exists file. split; [done|]. by eapply serialized_weaken.
  - rewrite promises_indices. apply NoDup_seq.
  - done.
  - intros i task _. by unfold P.
  - intros i task Hin m0 r m1' Hp Htask.
    apply elem_of_lookup_imap_1 in Hin as (i' & source & [= -> ->] & Hsrc).
    unfold Optimizer_optimizeSingleFile in Htask. rewrite Hno in Htask.
    simpl in Htask.
    apply bind_inv in Htask as [(file & m2 & Hparse & Htask)|(e & Hparse & ->)].
    + unfold bind, ret in Htask. injection Htask as <- <-.
      apply parseCss_inv in Hparse as (_ & L & _ & _ & Hpf & _ & Hheap).
      unfold Rel, Q, reserialized, serialized. unfold parsed_from in Hpf.
      destruct (content source) as [text0|r0] eqn:Hc.
      * destruct Hheap as (res & Hres & Hcf & ->).
        split; [apply insert_fresh_subseteq|].
        exists source. split; [done|]. rewrite Hc, Hres.
        intros text Htext. exists file. split; [done|].
        by rewrite Hcf, lookup_insert_eq.
      * rewrite Hheap. subst file. split; [done|].
        exists source. split; [done|]. rewrite Hc.
        intros text Htext. exists source. split; [done|].
        eapply serialized_weaken; [exact Hp|]. unfold serialized. by rewrite Hc.
    + apply parseCss_inv in Hparse as (_ & L & _ & _ & Hheap & text0 & Hc & Hthrown).
      unfold Rel, Q, reserialized. rewrite Hheap. split; [done|].
      exists source. split; [done|]. by rewrite Hc, Hthrown.
  - rewrite Hrun in Hrun'. injection Hrun' as <- <-. split.
    + apply (Hframe (λ a, heap ms ⊆ heap a)); [|done].
      intros j a b _ Ha Hab. unfold Rel in Hab. by etrans.
    + done.
Qed.

(** With both groups empty, [optimize] returns whenever every source
    reserializes, and gives the reserialized texts joined in source order and
    a style mapping that is still empty. *)
Lemma optimize_no_passes choices self out m texts :
  singleFileOptimizations self = [] →
  multiFileOptimizations self = [] →
  Forall2 (λ source text, reserialized (heap m) out source = Some text)
          (sources self) texts →
  ∃ res m',
    Optimizer_optimize choices self out m = (Returned res, m') ∧
    content (output res) = ContentString (String.concat LF texts) ∧
    heap m' !! styleMapping res = Some (ObjStyleMapping StyleMapping_empty) ∧
    ∃ L, emitted m m' L ∧ Forall (λ ev, is_pass_call ev = false) L.
Proof.
  intros Hno1 Hno2 Htexts.
  destruct (Optimizer_optimize choices self out m) as [r m'] eqn:H.
  destruct (optimize_trace _ _ _ _ _ _ H)
    as (L1 & L2 & L3 & He & _ & Hf1 & Hf2 & Hf3 & Hcomplete & Hres).
  destruct (optimize_inv _ _ _ _ _ _ H)
    as (ms & settled & m1 & L1' & Hh & _ & _ & Hrun & _ & _ & Hperm & _ & _ & Hrest).
  set (sm := fresh (dom (heap m))) in *.
  set (cache := fresh (dom (<[sm := ObjStyleMapping StyleMapping_empty]> (heap m)))) in *.
  assert (Hsub0 : heap m ⊆ heap ms).
  { rewrite Hh. etrans; [apply insert_fresh_subseteq|apply insert_fresh_subseteq]. }
  destruct (phase1_no_passes _ _ _ _ out _ _ _ Hno1 Hrun) as [Hsub1 Hall].
  rewrite Forall_forall in Hall.
  assert (Hres1 : ∀ i text, texts !! i = Some text →
            ∀ r, (i, r) ∈ settled →
              ∃ file, r = Returned file ∧ serialized (heap m1) out file = Some text).
  { intros i text Htext ri Hin.
    destruct (Hall _ Hin) as (source & Hsrc & Hq). simpl in Hsrc, Hq.
    apply Hq.
    destruct (Forall2_lookup_l _ _ _ _ _ Htexts Hsrc) as (text' & Htext' & Hre).
    assert (text' = text) as -> by congruence.
    unfold reserialized in *. destruct (content source); [done|].
    by eapply serialized_weaken. }
  assert (Hlen : length texts = length (sources self))
    by (symmetry; by eapply Forall2_length).
  assert (Hnone : first_rejection settled = None).
  { apply first_rejection_None, Forall_forall. intros [i ri] Hin. simpl.
    assert (Hi : i < length texts).
    { assert (Hseq : i ∈ seq 0 (length (sources self))).
      { rewrite <- Hperm. apply list_elem_of_fmap. by exists (i, ri). }
      apply elem_of_seq in Hseq. lia. }
    destruct (lookup_lt_is_Some_2 _ _ Hi) as [text Htext].
    destruct (Hres1 _ _ Htext _ Hin) as (file & -> & _). eauto. }
  rewrite Hnone in Hrest.
  destruct (Promise_all_values _ settled Hperm Hnone) as [Hflen Hval].
  set (files := omap (fulfilled_at settled) (seq 0 (length (sources self)))) in *.
  assert (Hfiles : Forall2 (λ file text, serialized (heap m1) out file = Some text)
                           files texts).
  { apply Forall2_same_length_lookup. split; [congruence|].
    intros i file text Hfile Htext.
    destruct (Hval i) as (file' & Hfile' & Hin).
    { rewrite <- Hflen. by eapply lookup_lt_Some. }
    assert (file' = file) as -> by congruence.
    destruct (Hres1 _ _ Htext _ Hin) as (file' & [= <-] & Hs). done. }
  destruct Hrest as (r2 & m2 & L2' & Hrun2 & _ & _ & _ & Hrest).
  unfold Optimizer_optimizeAllFiles in Hrun2. rewrite Hno2 in Hrun2.
  simpl in Hrun2. unfold bind, ret in Hrun2. injection Hrun2 as <- <-.
  destruct Hrest as (_ & r3 & Hrun3 & Hr).
  apply add_files_inv in Hrun3 as (Hh3 & _ & _ & Hr3).
  destruct r3 as [output|e].
  2:{ destruct Hr3 as (file & Hin & Hnoser).
      apply list_elem_of_lookup in Hin as [i Hi].
      destruct (Forall2_lookup_l _ _ _ _ _ Hfiles Hi) as (text & _ & Hs). congruence. }
  destruct Hr3 as (Hsep & chunks & HF & Hparts). subst r.
  assert (chunks = texts) as ->.
  { apply list_eq_same_length with (length files).
    - symmetry. by eapply Forall2_length.
    - symmetry. by eapply Forall2_length.
    - intros i c t _ Hc Ht.
      destruct (Forall2_lookup_r _ _ _ _ _ HF Hc) as (file & Hfile & Hs1).
      destruct (Forall2_lookup_l _ _ _ _ _ Hfiles Hfile) as (t' & Ht' & Hs2).
      congruence. }
  eexists _, m'. split; [done|]. split; [|split].
  - simpl. f_equal. unfold Concat_content. rewrite (Hparts []); [|done]. simpl.
    apply concat_pushed_parts.
  - simpl. rewrite Hh3. eapply lookup_weaken; [|exact Hsub1].
    rewrite Hh. rewrite lookup_insert_ne; [apply lookup_insert_eq|].
    intros Heq.
    pose proof (is_fresh (dom (<[sm := ObjStyleMapping StyleMapping_empty]> (heap m))))
      as Hf.
    fold cache in Hf. rewrite Heq in Hf. apply Hf. rewrite dom_insert_L.
    apply elem_of_union. left. by apply elem_of_singleton.
  - eexists. split; [exact He|].
    destruct (Hres _ eq_refl) as [_ ->]. rewrite Hno2.
    apply Forall_app. split; [by repeat constructor|].
    apply Forall_app. split; [|apply Forall_app; split].
    + apply Forall_forall. intros ev Hev.
      rewrite Forall_forall in Hf1. destruct (Hf1 _ Hev) as (i & Hi & Hof & _).
      destruct (lookup_lt_is_Some_2 _ _ Hi) as [source Hsrc].
      destruct (Hcomplete (or_intror (or_intror (ex_intro _ _ eq_refl))) i source Hsrc)
        as (file & _ & Hfilter).
      rewrite Hno1 in Hfilter. simpl in Hfilter. rewrite app_nil_r in Hfilter.
      assert (Hin : ev ∈ parse_events i source file).
      { rewrite <- Hfilter. apply list_elem_of_In, List.filter_In.
        by rewrite <- list_elem_of_In. }
      unfold parse_events in Hin.
      destruct (content source), (content file); try by inversion Hin.
      apply elem_of_cons in Hin as [->|Hin]; [done|].
      apply elem_of_cons in Hin as [->|Hin]; [done|]. by inversion Hin.
    + constructor.
    + eapply Forall_impl; [exact Hf3|]. intros ev Hev. by destruct ev.
Qed.

(** C1: constructed with options whose [enabled] is [false], the optimizer
    has both groups empty and has constructed no pass; and then [optimize],
    on any sources added, in any order of settling, calls no pass: when each
    source reserializes it returns the reserialized texts joined in source
    order, and a style mapping that is empty. *)
Theorem disabled_optimizer_passes_through supplied m d s :
  heap m !! DEFAULT_OPTIONS = Some (ObjRecord d) →
  heap m !! supplied = Some (ObjRecord s) →
  s !! "enabled" = Some (VBool false) →
  ∃ self m1,
    Optimizer_constructor supplied m = (Returned self, m1) ∧
    sources self = [] ∧
    singleFileOptimizations self = [] ∧
    multiFileOptimizations self = [] ∧
    emitted m m1 [] ∧
    ∀ self' choices out m2 texts,
      singleFileOptimizations self' = singleFileOptimizations self →
      multiFileOptimizations self' = multiFileOptimizations self →
      Forall2 (λ source text, reserialized (heap m2) out source = Some text)
              (sources self') texts →
      ∃ res m3,
        Optimizer_optimize choices self' out m2 = (Returned res, m3) ∧
        content (output res) = ContentString (String.concat LF texts) ∧
        heap m3 !! styleMapping res = Some (ObjStyleMapping StyleMapping_empty) ∧
        ∃ L, emitted m2 m3 L ∧ Forall (λ ev, is_pass_call ev = false) L.
Proof.
  intros Hd Hs Hen.
  destruct (Optimizer_constructor supplied m) as [r m1] eqn:H.
  apply Optimizer_constructor_inv in H as (t & mt & Hmerge & Hlog & _ & H).
  rewrite (merge_options_run _ _ _ _ Hd Hs) in Hmerge. injection Hmerge as <- <-.
  simpl in H. unfold own_props in H. rewrite lookup_insert_eq in H.
  rewrite (lookup_union_Some_l _ _ _ _ Hen) in H. simpl in H.
  destruct H as [-> ->].
  eexists _, _. split; [done|]. simpl. do 3 (split; [done|]).
  split; [unfold emitted; simpl; by rewrite app_nil_r|].
  intros self' choices out m2 texts Hs' Hm' Htexts.
  by apply optimize_no_passes.
Qed.

End Properties.

(** * The small instance, run *)

Section Examples.

Import Demo.

#[local] Existing Instance types.
#[local] Existing Instance collaborators.

Lemma demo_constructors_read_only supplied : constructors_read_only supplied.
Proof.
  intros key C o Hin h l _. simpl in Hin.
  repeat (apply elem_of_cons in Hin as [[= _ ->]|Hin]; [done|]).
  by inversion Hin.
Qed.

Lemma annotate_returns note file h : (annotate note file h).1 = Returned tt.
Proof.
  unfold annotate. destruct (content file) as [|r]; [done|].
  by destruct (h !! r) as [[| | |]|].
Qed.

Lemma demo_single_file_passes_return :
  single_file_passes_return (three_sources all_on).
Proof.
  intros o Ho. vm_compute in Ho.
  repeat (apply elem_of_cons in Ho as [->|Ho];
          [eexists; split; [reflexivity|]; intros; apply annotate_returns|]).
  by inversion Ho.
Qed.


(** C1, on the instance: disabled, then two sources. *)
Lemma disabled_optimizer_passes_through_witness :
  heap start !! DEFAULT_OPTIONS = Some (ObjRecord default_props) ∧
  heap start !! disabled_options = Some (ObjRecord disabled_props) ∧
  disabled_props !! "enabled" = Some (VBool false) ∧
  ∃ self m1,
    Optimizer_constructor disabled_options start = (Returned self, m1) ∧
    singleFileOptimizations self = [] ∧
    multiFileOptimizations self = [] ∧
    ∃ res m3,
      Optimizer_optimize [1] (two_sources self) "out.css" m1 = (Returned res, m3) ∧
      content (output res) = ContentString (String.concat LF ["a{}"; "b{}"]) ∧
      heap m3 !! styleMapping res = Some (ObjStyleMapping StyleMapping_empty).
Proof.
  assert (H1 : heap start !! DEFAULT_OPTIONS = Some (ObjRecord default_props))
    by reflexivity.
  assert (H2 : heap start !! disabled_options = Some (ObjRecord disabled_props))
    by reflexivity.
  assert (H3 : disabled_props !! "enabled" = Some (VBool false)) by reflexivity.
  split; [exact H1|]. split; [exact H2|]. split; [exact H3|].
  destruct (disabled_optimizer_passes_through disabled_options start
              default_props disabled_props H1 H2 H3)
    as (self & m1 & Hc & Hsrc & Hs & Hm & _ & Hopt).
  exists self, m1. split; [exact Hc|]. split; [exact Hs|]. split; [exact Hm|].
  destruct (Hopt (two_sources self) [1] "out.css" m1 ["a{}"; "b{}"] eq_refl eq_refl)
    as (res & m3 & Hrun & Hcontent & Hsm & _).
  { simpl. rewrite Hsrc. simpl.
    constructor; [reflexivity|]. constructor; [reflexivity|]. constructor. }
  exists res, m3. split; [exact Hrun|]. split; [exact Hcontent|exact Hsm].
Defined.

(** C2, on the instance: the call of the first cross-file pass, what comes
    before it and what comes after. *)
Lemma cross_file_passes_follow_phase1_witness :
  ∃ pre post,
    trace_of (Optimizer_optimize [1] (two_sources all_on) "out.css") after_all_on
    = pre ++ EvAllFiles 1 6 7 :: post ∧
    (∀ i source, sources (two_sources all_on) !! i = Some source →
       (∀ text, content source = ContentString text → ∃ r, EvParsed i r ∈ pre) ∧
       (∀ o, o ∈ singleFileOptimizations (two_sources all_on) →
             EvSingleFileDone (opt_id o) i ∈ pre)) ∧
    Forall (λ ev', is_phase1 ev' = false) (EvAllFiles 1 6 7 :: post).
Proof.
  destruct (cross_file_passes_follow_phase1 [1] (two_sources all_on) "out.css"
              after_all_on) as (L & He & Horder).
  apply trace_of_emitted in He.
  assert (Htrace :
    trace_of (Optimizer_optimize [1] (two_sources all_on) "out.css") after_all_on
    = [EvNewStyleMapping 6; EvNewSelectorCache 7;
       EvParse 1; EvParsed 1 8; EvSingleFile 0 1 6 7; EvSingleFileDone 0 1;
       EvSingleFile 2 1 6 7; EvSingleFileDone 2 1;
       EvParse 0; EvParsed 0 9; EvSingleFile 0 0 6 7; EvSingleFileDone 0 0;
       EvSingleFile 2 0 6 7; EvSingleFileDone 2 0]
      ++ EvAllFiles 1 6 7
         :: [EvAllFilesDone 1; EvAllFiles 2 6 7; EvAllFilesDone 2;
             EvConcatAdd 0 "a.css" "a{}/*1*//*1*//*2*//*2*/";
             EvConcatAdd 1 "b.css" "b{}/*1*//*1*//*2*//*2*/"])
    by (vm_compute; reflexivity).
  eexists _, _. split; [exact Htrace|].
  rewrite He in Htrace. exact (Horder _ _ _ Htrace eq_refl).
Defined.




(** C6, as stated, fails on the instance: options with a key the optimizer
    does not know and a string where a flag is expected are accepted. *)
Lemma unknown_option_is_accepted :
  bogus_props !! "bogus" = Some (VNumber 42) ∧
  ("bogus" ∉ recognized_keys) ∧
  bogus_props !! "rewriteIdents" = Some (VString "yes") ∧
  heap start !! bogus_options = Some (ObjRecord bogus_props) ∧
  ¬ raises_ConfigurationError (Optimizer_constructor bogus_options start).1.
Proof.
  split; [reflexivity|]. split.
  { intros Hin. vm_compute in Hin.
    repeat (apply elem_of_cons in Hin as [[=]|Hin]). by inversion Hin. }
  split; [reflexivity|]. split; [reflexivity|].
  intros (e & He & _). vm_compute in He. discriminate He.
Qed.



(** C9, on the instance: supplied options with a key of their own and a key
    that overrides a default. *)
Lemma options_merged_over_defaults_witness :
  heap start !! DEFAULT_OPTIONS = Some (ObjRecord default_props) ∧
  heap start !! bogus_options = Some (ObjRecord bogus_props) ∧
  constructors_read_only bogus_options ∧
  ∃ self m',
    Optimizer_constructor bogus_options start = (Returned self, m') ∧
    heap m' !! DEFAULT_OPTIONS = Some (ObjRecord default_props) ∧
    heap m' !! bogus_options = Some (ObjRecord bogus_props) ∧
    ∃ p, heap m' !! options self = Some (ObjRecord p) ∧
         p !! "bogus" = Some (VNumber 42) ∧
         p !! "rewriteIdents" = Some (VString "yes") ∧
         p !! "enabled" = Some (VBool true).
Proof.
  assert (H1 : heap start !! DEFAULT_OPTIONS = Some (ObjRecord default_props))
    by reflexivity.
  assert (H2 : heap start !! bogus_options = Some (ObjRecord bogus_props))
    by reflexivity.
  split; [exact H1|]. split; [exact H2|].
  split; [exact (demo_constructors_read_only bogus_options)|].
  destruct (Optimizer_constructor bogus_options start) as [r m'] eqn:Hrun.
  assert (Hr : ∃ self, r = Returned self).
  { assert (Hfst : (Optimizer_constructor bogus_options start).1 = r)
      by (by rewrite Hrun).
    vm_compute in Hfst. rewrite <- Hfst. eauto. }
  destruct Hr as [self ->].
  destruct (options_merged_over_defaults bogus_options start default_props bogus_props
              (Returned self) m' H1 H2 (demo_constructors_read_only bogus_options) Hrun)
    as (Hd & Hs & Hself).
  destruct (Hself self eq_refl) as (_ & _ & p & Hp & Hkeys & _).
  exists self, m'. split; [reflexivity|]. split; [exact Hd|]. split; [exact Hs|].
  exists p. split; [exact Hp|].
  split; [exact (Hkeys "bogus")|]. split; [exact (Hkeys "rewriteIdents")|].
  exact (Hkeys "enabled").
Defined.

End Examples.

(** * More properties of the orchestrator *)

Section MoreProperties.

Context {T : ExternalTypes} {E : Collaborators}.

Local Abbreviation promises self sm cache :=
  (imap (λ i source, (i, Optimizer_optimizeSingleFile self sm i source cache))
        (sources self)).

(** ** parseCss, case by case *)

Lemma parseCss_string_returned i source text res m :
  content source = ContentString text →
  postcss_process text (processOpts_for source) = Returned res →
  parseCss i source m
  = (Returned {| content := ContentResult (fresh (dom (heap m)));
                 filename := filename source; sourceMap := None |},
     {| heap := <[fresh (dom (heap m)) := ObjResult res]> (heap m);
        log := log m ++ [EvParse i; EvParsed i (fresh (dom (heap m)))];
        next_id := next_id m |}).
Proof.
  intros Hc Hp. unfold parseCss. rewrite Hc.
  unfold bind, emit, of_outcome, alloc, ret. simpl. rewrite Hp. simpl.
  by rewrite <- app_assoc.
Qed.

Lemma parseCss_string_thrown i source text e m :
  content source = ContentString text →
  postcss_process text (processOpts_for source) = Thrown e →
  parseCss i source m
  = (Thrown e,
     {| heap := heap m; log := log m ++ [EvParse i]; next_id := next_id m |}).
Proof.
  intros Hc Hp. unfold parseCss. rewrite Hc.
  unfold bind, emit, of_outcome. simpl. by rewrite Hp.
Qed.

Lemma parseCss_handle i source r m :
  content source = ContentResult r → parseCss i source m = (Returned source, m).
Proof. intros Hc. unfold parseCss. by rewrite Hc. Qed.

(** ** A callback of phase 1, pass by pass *)

Lemma call_optimizeSingleFile_pass sm i file an cache o m r m' :
  call_optimizeSingleFile sm i file an cache o m = (r, m') →
  ∃ L, emitted m m' L ∧ Forall (λ ev, is_pass_call ev = true) L ∧
    (∀ l, (∀ f, optimizeSingleFile o = Some f → preserves [l] (f sm file an cache)) →
          heap m' !! l = heap m !! l) ∧
    ((∃ f, optimizeSingleFile o = Some f ∧
           ∀ sm file an cache h, (f sm file an cache h).1 = Returned tt) →
     r = Returned tt) ∧
    (single_pass_always_throws o → ∃ e, r = Thrown e).
Proof.
  unfold call_optimizeSingleFile, single_pass_always_throws.
  destruct (optimizeSingleFile o) as [f|].
  - unfold bind, emit, external. simpl.
    destruct (f sm file an cache (heap m)) as [[[]|e] h] eqn:Ef;
      intros [= <- <-]; simpl.
    + eexists. split; [unfold emitted; simpl; by rewrite <- app_assoc|].
      split; [by repeat constructor|]. split; [|split; [done|]].
      * intros l Hl. specialize (Hl f eq_refl (heap m) l). rewrite Ef in Hl.
        apply Hl. by left.
      * intros Hthrows. destruct (Hthrows sm file an cache (heap m)) as [e He].
        by rewrite Ef in He.
    + eexists. split; [unfold emitted; simpl; done|].
      split; [by repeat constructor|]. split; [|split; [|eauto]].
      * intros l Hl. specialize (Hl f eq_refl (heap m) l). rewrite Ef in Hl.
        apply Hl. by left.
      * intros (f' & [= <-] & Hret). specialize (Hret sm file an cache (heap m)).
        by rewrite Ef in Hret.
  - unfold throw. intros [= <- <-].
    exists []. split; [apply emitted_refl|]. split; [constructor|].
    split; [done|]. split; [by intros (f & ? & _)|eauto].
Qed.

Lemma forEach_single_pass sm i file an cache l0 : ∀ m r m',
  forEach l0 (call_optimizeSingleFile sm i file an cache) m = (r, m') →
  ∃ L, emitted m m' L ∧ Forall (λ ev, is_pass_call ev = true) L ∧
    (∀ l, (∀ o f, o ∈ l0 → optimizeSingleFile o = Some f →
                  preserves [l] (f sm file an cache)) →
          heap m' !! l = heap m !! l) ∧
    ((∀ o, o ∈ l0 →
        ∃ f, optimizeSingleFile o = Some f ∧
             ∀ sm file an cache h, (f sm file an cache h).1 = Returned tt) →
     r = Returned tt) ∧
    ((∃ o, o ∈ l0 ∧ single_pass_always_throws o) → ∃ e, r = Thrown e).
Proof.
  induction l0 as [|o l0 IH]; intros m r m'; simpl.
  - unfold ret. intros [= <- <-].
    exists []. split; [apply emitted_refl|]. split; [constructor|].
    split; [done|]. split; [done|]. intros (o & Ho & _). by inversion Ho.
  - intros H. apply bind_inv in H as [([] & m1 & H1 & H)|(e & H1 & ->)].
    + apply call_optimizeSingleFile_pass in H1 as (L1 & He1 & Hf1 & Hh1 & _ & Hthrow1).
      apply IH in H as (L & He & Hf & Hh & Hret & Hthrow).
      exists (L1 ++ L). split; [by eapply emitted_trans|].
      split; [by apply Forall_app|]. split; [|split].
      * intros l Hl. rewrite Hh, Hh1; [done| |].
        -- intros f Hf'. apply (Hl o f); [by left|done].
        -- intros o' f Ho' Hf'. apply (Hl o' f); [by right|done].
      * intros Hall. apply Hret. intros o' Ho'. apply Hall. by right.
      * intros (o' & Ho' & Ht). apply elem_of_cons in Ho' as [->|Ho'].
        -- by destruct (Hthrow1 Ht).
        -- apply Hthrow. eauto.
    + apply call_optimizeSingleFile_pass in H1 as (L1 & He1 & Hf1 & Hh1 & Hret1 & _).
      exists L1. split; [done|]. split; [done|]. split; [|split; [|eauto]].
      * intros l Hl. apply Hh1. intros f Hf'. apply (Hl o f); [by left|done].
      * intros Hall. apply Hret1. apply Hall. by left.
Qed.

(** One promise of phase 1, from any state: its events, how it settles, and
    what it leaves alone. *)
Lemma optimizeSingleFile_run self sm i source cache m r m' :
  Optimizer_optimizeSingleFile self sm i source cache m = (r, m') →
  ∃ L, emitted m m' L ∧ Forall (phase1_event sm cache i) L ∧
    file_run self sm cache i source r L ∧
    (∀ l, is_Some (heap m !! l) →
          (∀ o f, o ∈ singleFileOptimizations self → optimizeSingleFile o = Some f →
                  ∀ sm file an cache, preserves [l] (f sm file an cache)) →
          heap m' !! l = heap m !! l).
Proof.
  intros H.
  destruct (optimizeSingleFile_inv _ _ _ _ _ _ _ _ H) as (_ & L & He & Hf & Hr).
  exists L. split; [done|]. split; [done|].
  unfold Optimizer_optimizeSingleFile in H. unfold file_run.
  assert (Hcallback : ∀ file m1,
            bind (forEach (singleFileOptimizations self)
                    (call_optimizeSingleFile sm i file (analyses self) cache))
                 (λ _, ret file) m1 = (r, m') →
            ∃ Lc, emitted m1 m' Lc ∧
              passes_run self sm cache i file r Lc ∧
              (∀ l, (∀ o f, o ∈ singleFileOptimizations self →
                            optimizeSingleFile o = Some f →
                            ∀ sm file an cache, preserves [l] (f sm file an cache)) →
                    heap m' !! l = heap m1 !! l)).
  { intros file m1 Hcb.
    apply bind_inv in Hcb as [([] & m2 & H2 & Hcb)|(e & H2 & ->)].
    - unfold ret in Hcb. injection Hcb as <- <-.
      pose proof H2 as H2'.
      apply forEach_single_pass in H2 as (L2 & He2 & Hf2 & Hh2 & _ & Hthrow2).
      apply forEach_single_inv in H2' as (_ & L2' & He2' & _ & ->).
      exists L2. split; [done|]. split.
      + split; [done|]. split; [split; [done|by eapply emitted_inj]|].
        split; [eauto|]. intros Hex. by destruct (Hthrow2 Hex).
      + intros l Hl. apply Hh2. intros o f Ho Hof. by apply (Hl o f).
    - pose proof H2 as H2'.
      apply forEach_single_pass in H2 as (L2 & He2 & Hf2 & Hh2 & Hret2 & _).
      apply forEach_single_inv in H2' as (_ & L2' & He2' & _ & Hthrown).
      exists L2. split; [done|]. split.
      + split; [done|]. split; [done|]. split; [|eauto].
        intros Hret. by specialize (Hret2 Hret).
      + intros l Hl. apply Hh2. intros o f Ho Hof. by apply (Hl o f). }
  destruct (content source) as [text|r0] eqn:Hc.
  - destruct (postcss_process text (processOpts_for source)) as [res|e] eqn:Hp.
    + rewrite (bind_returned _ _ _ _ _
                 (parseCss_string_returned i source text res m Hc Hp)) in H.
      set (l0 := fresh (dom (heap m))) in *.
      match type of H with bind _ _ ?m0 = _ => set (m1 := m0) in * end.
      assert (He1 : emitted m m1 [EvParse i; EvParsed i l0]) by done.
      destruct (Hcallback _ _ H) as (Lc & HLc & Hpr & Hh).
      rewrite (emitted_inj _ _ _ _ He (emitted_trans _ _ _ _ _ He1 HLc)).
      split.
      * exists l0, Lc. split; [done|exact Hpr].
      * intros l Hl Hpres. rewrite (Hh l Hpres). simpl.
        apply lookup_insert_ne. intros Heq.
        apply (is_fresh (dom (heap m))). fold l0. rewrite Heq. by apply elem_of_dom.
    + rewrite (bind_thrown _ _ _ _ _
                 (parseCss_string_thrown i source text e m Hc Hp)) in H.
      injection H as <- <-. split.
      * split; [done|]. unfold emitted in He. simpl in He.
        by apply app_inv_head in He.
      * done.
  - rewrite (bind_returned _ _ _ _ _ (parseCss_handle i source r0 m Hc)) in H.
    destruct (Hcallback _ _ H) as (Lc & HLc & Hpr & Hh).
    rewrite (emitted_inj _ _ _ _ He HLc). split; [done|].
    intros l _ Hpres. by apply Hh.
Qed.

(** ** Phase 1, file by file *)

(** Whatever the order of settling: the events of each file in the trace of
    phase 1 are those of its own promise, which settles as [file_run] says;
    and an object that existed before and that no single-file pass writes to
    is what it was. *)
Lemma phase1_files self sm cache choices ms settled m1 L1 :
  settle_all (length (promises self sm cache)) choices (promises self sm cache) ms
    = (Returned settled, m1) →
  emitted ms m1 L1 →
  Forall (λ ir, ∃ source, sources self !! ir.1 = Some source ∧
            file_run self sm cache ir.1 source ir.2 (List.filter (of_file ir.1) L1))
         settled ∧
  (∀ l, is_Some (heap ms !! l) →
        (∀ o f, o ∈ singleFileOptimizations self → optimizeSingleFile o = Some f →
                ∀ sm file an cache, preserves [l] (f sm file an cache)) →
        heap m1 !! l = heap ms !! l).
Proof.
  intros Hrun He1.
  set (keeps := λ (a b : Machine),
         ∀ l, is_Some (heap a !! l) →
              (∀ o f, o ∈ singleFileOptimizations self → optimizeSingleFile o = Some f →
                      ∀ sm file an cache, preserves [l] (f sm file an cache)) →
              heap b !! l = heap a !! l).
  set (Rel := λ (i : nat) (a b : Machine),
         keeps a b ∧ ∃ L, emitted a b L ∧ Forall (phase1_event sm cache i) L).
  set (P := λ (i : nat) (a : Machine),
         ∃ L, emitted ms a L ∧ List.filter (of_file i) L = []).
  set (Q := λ (i : nat) (r : Outcome CssFile) (a : Machine),
         ∃ L, emitted ms a L ∧ ∃ source, sources self !! i = Some source ∧
              file_run self sm cache i source r (List.filter (of_file i) L)).
  destruct (settle_all_spec (A := CssFile) Rel P Q) with
    (fuel := length (promises self sm cache)) (choices := choices)
    (pending := promises self sm cache) (m := ms)
    as (settled' & m1' & Hrun' & _ & Hall & Hframe).
  - intros i j a b Hij (L & He & Hf) (_ & L' & He' & Hf').
    exists (L ++ L'). split; [by eapply emitted_trans|].
    rewrite List.filter_app, Hf. simpl. eauto using filter_of_file_other.
  - intros i j r a b Hij (L & He & src & Hsrc & Hr) (_ & L' & He' & Hf').
    exists (L ++ L'). split; [by eapply emitted_trans|].
    exists src. split; [done|].
    by rewrite List.filter_app, (filter_of_file_other sm cache i j L'), app_nil_r.
  - rewrite promises_indices. apply NoDup_seq.
  - done.
  - intros i task _. exists []. split; [apply emitted_refl|done].
  - intros i task Hin m0 r m1'' (L0 & He0 & Hf0) Htask.
    apply elem_of_lookup_imap_1 in Hin as (i' & src & [= -> ->] & Hsrc).
    apply optimizeSingleFile_run in Htask as (L & He & Hf & Hr & Hkeep).
    split.
    + split; [exact Hkeep|eauto].
    + exists (L0 ++ L). split; [by eapply emitted_trans|].
      exists src. split; [done|].
      by rewrite List.filter_app, Hf0, (filter_of_file_same sm cache).
  - rewrite Hrun in Hrun'. injection Hrun' as <- <-. split.
    + eapply Forall_impl; [exact Hall|].
      intros [i r] (L & He & src & Hsrc & Hr). simpl in *.
      rewrite (emitted_inj _ _ _ _ He1 He). eauto.
    + apply (Hframe (λ a, keeps ms a)).
      * intros j a b _ Ha (Hab & _) l Hl Hpres.
        rewrite (Hab l), (Ha l); try done. by rewrite (Ha l).
      * by intros l _ _.
Qed.

(** ** Phase 2, pass by pass *)

Lemma call_optimizeAllFiles_pass sm files an cache o m r m' :
  call_optimizeAllFiles sm files an cache o m = (r, m') →
  (∀ l, (∀ f, optimizeAllFiles o = Some f → preserves [l] (f sm files an cache)) →
        heap m' !! l = heap m !! l) ∧
  ((∃ f, optimizeAllFiles o = Some f ∧
         ∀ sm files an cache h, (f sm files an cache h).1 = Returned tt) →
   r = Returned tt) ∧
  (multi_pass_always_throws o → ∃ e, r = Thrown e) ∧
  (∀ e, r = Thrown e → multi_pass_throws o e).
Proof.
  unfold call_optimizeAllFiles, multi_pass_always_throws, multi_pass_throws.
  destruct (optimizeAllFiles o) as [f|].
  - unfold bind, emit, external. simpl.
    destruct (f sm files an cache (heap m)) as [[[]|e] h] eqn:Ef;
      intros [= <- <-]; simpl.
    + split; [|split; [done|split; [|done]]].
      * intros l Hl. specialize (Hl f eq_refl (heap m) l). rewrite Ef in Hl.
        apply Hl. by left.
      * intros Hthrows. destruct (Hthrows sm files an cache (heap m)) as [e He].
        by rewrite Ef in He.
    + split; [|split; [|split; [eauto|]]].
      * intros l Hl. specialize (Hl f eq_refl (heap m) l). rewrite Ef in Hl.
        apply Hl. by left.
      * intros (f' & [= <-] & Hret). specialize (Hret sm files an cache (heap m)).
        by rewrite Ef in Hret.
      * intros e' [= <-]. exists sm, files, an, cache, (heap m). by rewrite Ef.
  - unfold throw. intros [= <- <-].
    split; [done|]. split; [by intros (f & ? & _)|]. split; [eauto|].
    by intros e [= <-].
Qed.

Lemma Optimizer_optimizeAllFiles_run self sm files cache m r m' :
  Optimizer_optimizeAllFiles self sm files cache m = (r, m') →
  (∀ l, (∀ o f, o ∈ multiFileOptimizations self → optimizeAllFiles o = Some f →
                ∀ sm files an cache, preserves [l] (f sm files an cache)) →
        heap m' !! l = heap m !! l) ∧
  (multi_file_passes_return self → r = Returned files) ∧
  ((∃ o, o ∈ multiFileOptimizations self ∧ multi_pass_always_throws o) →
   ∃ e, r = Thrown e) ∧
  (∀ e, r = Thrown e → ∃ o, o ∈ multiFileOptimizations self ∧ multi_pass_throws o e).
Proof.
  unfold Optimizer_optimizeAllFiles, multi_file_passes_return.
  generalize (multiFileOptimizations self) as l0. intros l0 H.
  assert (Hloop : ∀ r0 m0,
            forEach l0 (call_optimizeAllFiles sm files (analyses self) cache) m = (r0, m0) →
            (∀ l, (∀ o f, o ∈ l0 → optimizeAllFiles o = Some f →
                          ∀ sm files an cache, preserves [l] (f sm files an cache)) →
                  heap m0 !! l = heap m !! l) ∧
            ((∀ o, o ∈ l0 →
                ∃ f, optimizeAllFiles o = Some f ∧
                     ∀ sm files an cache h, (f sm files an cache h).1 = Returned tt) →
             r0 = Returned tt) ∧
            ((∃ o, o ∈ l0 ∧ multi_pass_always_throws o) → ∃ e, r0 = Thrown e) ∧
            (∀ e, r0 = Thrown e → ∃ o, o ∈ l0 ∧ multi_pass_throws o e)).
  { clear H. revert m. induction l0 as [|o l0 IH]; intros m r0 m0; simpl.
    - unfold ret. intros [= <- <-]. split; [done|]. split; [done|].
      split; [|done]. intros (o & Ho & _). by inversion Ho.
    - intros H. apply bind_inv in H as [([] & m1 & H1 & H)|(e & H1 & ->)].
      + apply call_optimizeAllFiles_pass in H1 as (Hh1 & _ & Hthrow1 & _).
        apply IH in H as (Hh & Hret & Hthrow & Hwho).
        split; [|split; [|split]].
        * intros l Hl. rewrite Hh, Hh1; [done| |].
          -- intros f Hf'. apply (Hl o f); [by left|done].
          -- intros o' f Ho' Hf'. apply (Hl o' f); [by right|done].
        * intros Hall. apply Hret. intros o' Ho'. apply Hall. by right.
        * intros (o' & Ho' & Ht). apply elem_of_cons in Ho' as [->|Ho'].
          -- by destruct (Hthrow1 Ht).
          -- apply Hthrow. eauto.
        * intros e He. destruct (Hwho e He) as (o' & Ho' & Hthr).
          exists o'. split; [by right|done].
      + apply call_optimizeAllFiles_pass in H1 as (Hh1 & Hret1 & _ & Hwho1).
        split; [|split; [|split; [eauto|]]].
        * intros l Hl. apply Hh1. intros f Hf'. apply (Hl o f); [by left|done].
        * intros Hall. apply Hret1. apply Hall. by left.
        * intros e' [= <-]. exists o. split; [by left|]. by apply Hwho1. }
  apply bind_inv in H as [([] & m1 & H1 & H)|(e & H1 & ->)].
  - unfold ret in H. injection H as <- <-.
    destruct (Hloop _ _ H1) as (Hh & _ & Hthrow & _).
    split; [done|]. split; [done|]. split; [|done].
    intros Hex. by destruct (Hthrow Hex).
  - destruct (Hloop _ _ H1) as (Hh & Hret & _ & Hwho).
    split; [done|]. split; [|split; [eauto|]].
    + intros Hall. by specialize (Hret Hall).
    + intros e' [= <-]. by apply Hwho.
Qed.

(** ** A run of optimize, file by file *)

Lemma filter_of_file_trace sm cache i (L0 L1 L2 L3 : list Event) :
  Forall (λ ev, is_creation ev = true) L0 →
  Forall (phase2_event sm cache) L2 →
  Forall (λ ev, is_concat_add ev = true) L3 →
  List.filter (of_file i) (L0 ++ L1 ++ L2 ++ L3) = List.filter (of_file i) L1.
Proof.
  intros H0 H2 H3. rewrite !List.filter_app.
  rewrite (filter_none (of_file i) L0), (filter_none (of_file i) L2),
    (filter_none (of_file i) L3).
  - by rewrite !app_nil_r.
  - eapply Forall_impl; [exact H3|]. intros ev Hev.
    by apply concat_add_kinds in Hev as (_ & _ & _ & _ & _ & ?).
  - eapply Forall_impl; [exact H2|]. intros ev Hev.
    by apply phase2_event_kinds in Hev as (_ & _ & _ & _ & ?).
  - eapply Forall_impl; [exact H0|]. intros ev Hev. by destruct ev.
Qed.

(** Every run of [optimize]: the shape of its trace; how the promise of each
    source settled and what it did, whether or not the run was rejected; what
    a rejection leaves out; and what the run leaves alone. *)
Lemma optimize_run choices self out m r m' :
  Optimizer_optimize choices self out m = (r, m') →
  let sm := fresh (dom (heap m)) in
  let cache := fresh (dom (<[sm := ObjStyleMapping StyleMapping_empty]> (heap m))) in
  ∃ L1 L2 L3,
    emitted m m' ([EvNewStyleMapping sm; EvNewSelectorCache cache] ++ L1 ++ L2 ++ L3) ∧
    Forall (λ ev, ∃ i, i < length (sources self) ∧ phase1_event sm cache i ev) L1 ∧
    Forall (phase2_event sm cache) L2 ∧
    Forall (λ ev, is_concat_add ev = true) L3 ∧
    (∀ i source, sources self !! i = Some source →
       ∃ ri, file_run self sm cache i source ri (List.filter (of_file i) L1) ∧
             ∀ e, ri = Thrown e → (∃ e', r = Thrown e') ∧ L2 = [] ∧ L3 = []) ∧
    ((∃ o, o ∈ multiFileOptimizations self ∧ multi_pass_always_throws o) →
     (∃ e, r = Thrown e) ∧ L3 = []) ∧
    (∀ l, is_Some (heap m !! l) → passes_preserve self l →
          heap m' !! l = heap m !! l).
Proof.
  intros H sm cache.
  destruct (optimize_inv _ _ _ _ _ _ H)
    as (ms & settled & m1 & L1 & Hh & He0 & _ & Hrun & He1 & _ & Hperm & Hf1 & _ & Hrest).
  fold sm cache in Hh, He0, Hrun, Hf1, Hrest.
  destruct (phase1_files _ _ _ _ _ _ _ _ Hrun He1) as [Hfiles Hkeep1].
  rewrite Forall_forall in Hfiles.
  assert (Hsettled : ∀ i source, sources self !! i = Some source →
            ∃ ri, (i, ri) ∈ settled ∧
                  file_run self sm cache i source ri (List.filter (of_file i) L1)).
  { intros i source Hsrc.
    assert (Hin : i ∈ settled.*1).
    { rewrite Hperm. apply elem_of_seq. apply lookup_lt_Some in Hsrc. lia. }
    apply list_elem_of_fmap in Hin as ([j ri] & -> & Hin).
    destruct (Hfiles _ Hin) as (source' & Hsrc' & Hr). simpl in *.
    exists ri. split; [done|]. congruence. }
  assert (Hms : ∀ l, is_Some (heap m !! l) → heap ms !! l = heap m !! l).
  { intros l Hl. rewrite Hh.
    assert (Hdom : l ∈ dom (heap m)) by (by apply elem_of_dom).
    rewrite !lookup_insert_ne; [done| |].
    - intros Heq. apply (is_fresh (dom (heap m))). fold sm. by rewrite Heq.
    - intros Heq.
      apply (is_fresh (dom (<[sm := ObjStyleMapping StyleMapping_empty]> (heap m)))).
      fold cache. rewrite Heq, dom_insert_L. apply elem_of_union. by right. }
  assert (Hm1 : ∀ l, is_Some (heap m !! l) → passes_preserve self l →
                     heap m1 !! l = heap m !! l).
  { intros l Hl [Hp1 _]. rewrite <- (Hms l Hl). apply Hkeep1; [|done].
    by rewrite (Hms l Hl). }
  destruct (first_rejection settled) as [e|] eqn:Hrej.
  - destruct Hrest as [-> ->]. exists L1, [], [].
    split; [rewrite !app_nil_r; by eapply emitted_trans|].
    split; [done|]. do 2 (split; [constructor|]).
    split; [|split; [eauto|done]].
    intros i source Hsrc. destruct (Hsettled i source Hsrc) as (ri & _ & Hr).
    exists ri. split; [done|]. eauto.
  - assert (Hnone := Hrej). apply first_rejection_None in Hnone.
    rewrite Forall_forall in Hnone.
    assert (Hfulfilled : ∀ i source, sources self !! i = Some source →
              ∃ ri, file_run self sm cache i source ri (List.filter (of_file i) L1) ∧
                    ∀ e, ri ≠ Thrown e).
    { intros i source Hsrc. destruct (Hsettled i source Hsrc) as (ri & Hin & Hr).
      exists ri. split; [done|]. intros e ->.
      by destruct (Hnone _ Hin) as [a Ha]. }
    destruct Hrest as (r2 & m2 & L2 & Hrun2 & He2 & _ & Hf2 & Hrest).
    destruct (Optimizer_optimizeAllFiles_run _ _ _ _ _ _ _ Hrun2)
      as (Hkeep2 & _ & Hthrow2 & _).
    destruct r2 as [files2|e].
    + destruct Hrest as (HL2 & r3 & Hrun3 & Hr).
      apply add_files_inv in Hrun3 as (Hh3 & _ & He3 & _).
      eexists L1, L2, _.
      split; [eauto using emitted_trans|]. split; [done|]. split; [done|].
      split; [apply add_events_concat|]. split; [|split].
      * intros i source Hsrc. destruct (Hfulfilled i source Hsrc) as (ri & Hr' & Hne).
        exists ri. split; [done|]. intros e ->. by destruct (Hne e).
      * intros Hex. by destruct (Hthrow2 Hex).
      * intros l Hl Hp. rewrite Hh3, (Hkeep2 l), (Hm1 l Hl Hp); [done|].
        by destruct Hp.
    + destruct Hrest as [-> ->]. exists L1, L2, [].
      split; [rewrite app_nil_r; eauto using emitted_trans|].
      split; [done|]. split; [done|]. split; [constructor|]. split; [|split].
      * intros i source Hsrc. destruct (Hfulfilled i source Hsrc) as (ri & Hr' & Hne).
        exists ri. split; [done|]. intros e' ->. by destruct (Hne e').
      * eauto.
      * intros l Hl Hp. rewrite (Hkeep2 l), (Hm1 l Hl Hp); [done|].
        by destruct Hp.
Qed.

(** A run of [optimize] that returns: the files in source order and their
    texts. *)
Lemma optimize_returned choices self out m res m' :
  Optimizer_optimize choices self out m = (Returned res, m') →
  ∃ files texts,
    length files = length (sources self) ∧
    (∀ i source, sources self !! i = Some source →
       ∃ file, files !! i = Some file ∧ parsed_from source file) ∧
    Forall2 (λ file text, serialized (heap m') out file = Some text) files texts ∧
    content (output res) = ContentString (String.concat LF texts) ∧
    filename (output res) = Some out ∧
    styleMapping res = fresh (dom (heap m)).
Proof.
  intros H.
  destruct (optimize_inv _ _ _ _ _ _ H)
    as (ms & settled & m1 & L1 & _ & _ & _ & _ & _ & _ & Hperm & _ & Hall & Hrest).
  destruct (first_rejection settled) as [e|] eqn:Hrej; [by destruct Hrest|].
  destruct Hrest as (r2 & m2 & L2 & _ & _ & _ & _ & Hrest).
  destruct r2 as [files2|e]; [|by destruct Hrest].
  destruct Hrest as (_ & r3 & Hrun3 & Hr).
  destruct r3 as [output|e]; [|done]. injection Hr as ->.
  set (files := omap (fulfilled_at settled) (seq 0 (length (sources self)))) in *.
  destruct (Promise_all_values _ settled Hperm Hrej) as [Hlen Hval].
  fold files in Hlen, Hval.
  apply add_files_inv in Hrun3 as (Hh3 & _ & _ & _ & texts & HF & Hparts).
  rewrite Forall_forall in Hall.
  exists files, texts. split; [done|]. split; [|split; [|split; [|done]]].
  - intros i source Hsrc.
    destruct (Hval i) as (file & Hfile & Hin); [by eapply lookup_lt_Some|].
    destruct (Hall _ Hin) as (source' & Hsrc' & Hpf & _).
    simpl in Hsrc', Hpf. exists file. split; [done|]. congruence.
  - by rewrite Hh3.
  - simpl. f_equal. unfold Concat_content.
    rewrite (Hparts []); [|done]. simpl. apply concat_pushed_parts.
Qed.

(** ** No sources *)


(** ** The order of the passes *)

(** X2: in a run of [optimize] that returns, the events of phase 2 are one
    completed call of each cross-file pass, in the order of the group; and
    the events of each file are its parse followed by one completed call of
    each single-file pass, in the order of the group: a pass starts on a file
    only when the pass before it in the group has returned. *)
Theorem passes_run_in_group_order choices self out m res :
  (Optimizer_optimize choices self out m).1 = Returned res →
  let sm := fresh (dom (heap m)) in
  let cache := fresh (dom (<[sm := ObjStyleMapping StyleMapping_empty]> (heap m))) in
  ∃ L, emitted m (Optimizer_optimize choices self out m).2 L ∧
    List.filter is_phase2 L
    = flat_map (multi_events sm cache) (multiFileOptimizations self) ∧
    ∀ i source, sources self !! i = Some source →
      ∃ file, parsed_from source file ∧
              List.filter (of_file i) L
              = parse_events i source file ++
                flat_map (single_events sm cache i) (singleFileOptimizations self).
Proof.
  intros Hr sm cache.
  destruct (Optimizer_optimize choices self out m) as [r m'] eqn:H.
  simpl in Hr. subst r. simpl.
  destruct (optimize_trace _ _ _ _ _ _ H)
    as (L1 & L2 & L3 & He & _ & Hf1 & Hf2 & Hf3 & Hcomplete & Hres).
  fold sm cache in He, Hf1, Hf2, Hcomplete, Hres.
  destruct (Hres res eq_refl) as [_ HL2].
  eexists. split; [exact He|]. split.
  - rewrite !List.filter_app.
    rewrite (filter_none is_phase2 L1), (filter_none is_phase2 L3).
    + rewrite app_nil_r. simpl. rewrite HL2. clear.
      induction (multiFileOptimizations self) as [|o l IH]; simpl; [done|].
      by rewrite IH.
    + eapply Forall_impl; [exact Hf3|]. intros ev Hev.
      by apply concat_add_kinds in Hev as (_ & ? & _).
    + eapply Forall_impl; [exact Hf1|]. intros ev (i & _ & Hev).
      by apply phase1_event_kinds in Hev as (_ & ? & _).
  - intros i source Hsrc.
    destruct (Hcomplete (or_intror (or_intror (ex_intro _ res eq_refl))) i source Hsrc)
      as (file & Hpf & Hfilter).
    exists file. split; [done|].
    rewrite (filter_of_file_trace sm cache); [done| |done|done].
    by repeat constructor.
Qed.

(** ** What optimize leaves alone *)

(** X3: [optimize] writes to existing objects through the passes only: an
    object that exists when [optimize] is called and that no pass of the
    optimizer writes to is the same when the run ends, returned or rejected
    (the objects [optimize] itself creates are new ones). *)
Theorem optimize_writes_through_passes_only choices self out m l :
  is_Some (heap m !! l) →
  passes_preserve self l →
  heap (Optimizer_optimize choices self out m).2 !! l = heap m !! l.
Proof.
  intros Hl Hp.
  destruct (Optimizer_optimize choices self out m) as [r m'] eqn:H. simpl.
  destruct (optimize_run _ _ _ _ _ _ H) as (L1 & L2 & L3 & _ & _ & _ & _ & _ & _ & Hkeep).
  by apply Hkeep.
Qed.

(** ** Passes that throw *)

(** X4: when a single-file pass throws whatever it is given and there is at
    least one source, [optimize] rejects, no cross-file pass is called and
    nothing is added to the output. *)
Theorem throwing_single_file_pass_rejects choices self out m :
  sources self ≠ [] →
  (∃ o, o ∈ singleFileOptimizations self ∧ single_pass_always_throws o) →
  ∃ e L,
    (Optimizer_optimize choices self out m).1 = Thrown e ∧
    emitted m (Optimizer_optimize choices self out m).2 L ∧
    Forall (λ ev, is_phase2 ev = false ∧ is_concat_add ev = false) L.
Proof.
  intros Hne Hthrows.
  destruct (Optimizer_optimize choices self out m) as [r m'] eqn:H. simpl.
  destruct (optimize_run _ _ _ _ _ _ H)
    as (L1 & L2 & L3 & He & Hf1 & _ & _ & Hfiles & _ & _).
  destruct (sources self) as [|source rest] eqn:Hsrc; [done|].
  destruct (Hfiles 0 source eq_refl) as (ri & Hrun & Hrej).
  assert (Hri : ∃ e, ri = Thrown e).
  { unfold file_run in Hrun. destruct (content source) as [text|r0].
    - destruct (postcss_process text (processOpts_for source)) as [res|e].
      + destruct Hrun as (l & Lc & _ & _ & _ & _ & Hthrow). by apply Hthrow.
      + destruct Hrun as [-> _]. eauto.
    - destruct Hrun as (_ & _ & _ & Hthrow). by apply Hthrow. }
  destruct Hri as [e0 ->].
  destruct (Hrej e0 eq_refl) as ([e ->] & -> & ->).
  exists e. eexists. split; [done|]. split; [exact He|].
  rewrite !app_nil_r. apply Forall_app. split; [by repeat constructor|].
  eapply Forall_impl; [exact Hf1|]. intros ev (i & _ & Hev).
  by apply phase1_event_kinds in Hev as (_ & ? & _ & _ & ?).
Qed.

(** X5: when a cross-file pass throws whatever it is given, [optimize]
    rejects, with or without sources, and nothing is added to the output. *)
Theorem throwing_cross_file_pass_rejects choices self out m :
  (∃ o, o ∈ multiFileOptimizations self ∧ multi_pass_always_throws o) →
  ∃ e L,
    (Optimizer_optimize choices self out m).1 = Thrown e ∧
    emitted m (Optimizer_optimize choices self out m).2 L ∧
    Forall (λ ev, is_concat_add ev = false) L.
Proof.
  intros Hthrows.
  destruct (Optimizer_optimize choices self out m) as [r m'] eqn:H. simpl.
  destruct (optimize_run _ _ _ _ _ _ H)
    as (L1 & L2 & L3 & He & Hf1 & Hf2 & _ & _ & Hmulti & _).
  destruct (Hmulti Hthrows) as ([e ->] & ->).
  exists e. eexists. split; [done|]. split; [exact He|].
  rewrite app_nil_r. apply Forall_app. split; [by repeat constructor|].
  apply Forall_app. split.
  - eapply Forall_impl; [exact Hf1|]. intros ev (i & _ & Hev).
    by apply phase1_event_kinds in Hev as (_ & _ & _ & _ & ?).
  - eapply Forall_impl; [exact Hf2|]. intros ev Hev.
    by apply phase2_event_kinds in Hev as (_ & _ & _ & ? & _).
Qed.

(** ** Sources that do not parse, and the others *)

(** X6: a source the parser rejects is never handed to a pass: all that
    happens for it in a run of [optimize] is the call of the parser. *)
Theorem unparsable_source_reaches_no_pass choices self out m i source text e :
  sources self !! i = Some source →
  content source = ContentString text →
  postcss_process text (processOpts_for source) = Thrown e →
  ∃ L, emitted m (Optimizer_optimize choices self out m).2 L ∧
       List.filter (of_file i) L = [EvParse i].
Proof.
  intros Hsrc Hc Hp.
  destruct (Optimizer_optimize choices self out m) as [r m'] eqn:H. simpl.
  destruct (optimize_run _ _ _ _ _ _ H)
    as (L1 & L2 & L3 & He & _ & Hf2 & Hf3 & Hfiles & _ & _).
  destruct (Hfiles i source Hsrc) as (ri & Hrun & _).
  unfold file_run in Hrun. rewrite Hc, Hp in Hrun. destruct Hrun as [_ Hfilter].
  eexists. split; [exact He|].
  erewrite (filter_of_file_trace _ _ i _ L1 L2 L3); [done| |exact Hf2|done].
  by repeat constructor.
Qed.

(** X7: a rejection cancels nothing.  When no single-file pass throws, every
    source that parses is parsed and every single-file pass is run on it to
    completion, in every run of [optimize], also one that another source
    makes reject. *)
Theorem rejection_does_not_stop_other_files choices self out m j source :
  single_file_passes_return self →
  sources self !! j = Some source →
  parses source →
  let sm := fresh (dom (heap m)) in
  let cache := fresh (dom (<[sm := ObjStyleMapping StyleMapping_empty]> (heap m))) in
  ∃ L, emitted m (Optimizer_optimize choices self out m).2 L ∧
    ∃ file, parsed_from source file ∧
      List.filter (of_file j) L
      = parse_events j source file ++
        flat_map (single_events sm cache j) (singleFileOptimizations self).
Proof.
  intros Hret Hsrc Hparses sm cache.
  destruct (Optimizer_optimize choices self out m) as [r m'] eqn:H. simpl.
  destruct (optimize_run _ _ _ _ _ _ H)
    as (L1 & L2 & L3 & He & _ & Hf2 & Hf3 & Hfiles & _ & _).
  fold sm cache in He, Hf2, Hfiles.
  destruct (Hfiles j source Hsrc) as (ri & Hrun & _).
  assert (Hinit : Forall (λ ev, is_creation ev = true)
                    [EvNewStyleMapping sm; EvNewSelectorCache cache])
    by (by repeat constructor).
  eexists. split; [exact He|].
  rewrite (filter_of_file_trace sm cache j _ L1 L2 L3) by done.
  unfold file_run, parses, parsed_from, parse_events in *.
  destruct (content source) as [text|r0] eqn:Hc.
  - destruct Hparses as [res Hres]. rewrite Hres in Hrun.
    destruct Hrun as (l & Lc & Hfilter & _ & Hri & Hreturns & _).
    destruct (Hreturns Hret) as [file ->]. destruct Hri as [-> ->].
    exists {| content := ContentResult l; filename := filename source;
              sourceMap := None |}.
    split; [eauto|]. by rewrite Hfilter.
  - destruct Hrun as (_ & Hri & Hreturns & _).
    destruct (Hreturns Hret) as [file ->]. destruct Hri as [-> Hfilter].
    exists source. by split.
Qed.

(** X8: when every source is already a parsed handle, no run of [optimize]
    calls the parser. *)
Theorem parsed_handles_skip_the_parser choices self out m :
  (∀ source, source ∈ sources self → ∃ r, content source = ContentResult r) →
  ∃ L, emitted m (Optimizer_optimize choices self out m).2 L ∧
       Forall (λ ev, is_parser_event ev = false) L.
Proof.
  intros Hhandles.
  destruct (Optimizer_optimize choices self out m) as [r m'] eqn:H. simpl.
  destruct (optimize_run _ _ _ _ _ _ H)
    as (L1 & L2 & L3 & He & Hf1 & Hf2 & Hf3 & Hfiles & _ & _).
  eexists. split; [exact He|].
  apply Forall_app. split; [by repeat constructor|].
  apply Forall_app. split; [|apply Forall_app; split].
  - apply Forall_forall. intros ev Hev.
    rewrite Forall_forall in Hf1. destruct (Hf1 _ Hev) as (i & Hi & Hof & _).
    destruct (lookup_lt_is_Some_2 _ _ Hi) as [source Hsrc].
    destruct (Hfiles i source Hsrc) as (ri & Hrun & _).
    destruct (Hhandles source) as [r0 Hc]; [by eapply list_elem_of_lookup_2|].
    unfold file_run in Hrun. rewrite Hc in Hrun. destruct Hrun as (Hcalls & _).
    assert (Hin : ev ∈ List.filter (of_file i) L1).
    { apply list_elem_of_In, List.filter_In. by rewrite <- list_elem_of_In. }
    rewrite Forall_forall in Hcalls. specialize (Hcalls _ Hin). by destruct ev.
  - eapply Forall_impl; [exact Hf2|]. intros ev [Hev _]. by destruct ev.
  - eapply Forall_impl; [exact Hf3|]. intros ev Hev. by destruct ev.
Qed.


(** ** The two methods of the optimizer *)



(** ** Analyses *)

(** X12: the analyses reach the passes and nothing else: for an optimizer
    without passes, adding an analysis changes nothing in a run of
    [optimize]. *)
Theorem analyses_matter_to_passes_only choices self analysis out m :
  singleFileOptimizations self = [] →
  multiFileOptimizations self = [] →
  Optimizer_optimize choices (addAnalysis self analysis) out m
  = Optimizer_optimize choices self out m.
Proof.
  intros Hno1 Hno2. unfold Optimizer_optimize.
  unfold bind at 1. unfold bind at 6. rewrite new_StyleMapping_run.
  unfold bind at 1. unfold bind at 5. rewrite new_SelectorCache_run.
  simpl sources.
  set (sm := fresh (dom (heap m))).
  set (cache := fresh (dom _)).
  assert (Hp : imap (λ i source,
                       (i, Optimizer_optimizeSingleFile (addAnalysis self analysis)
                             sm i source cache)) (sources self)
               = imap (λ i source,
                         (i, Optimizer_optimizeSingleFile self sm i source cache))
                      (sources self)).
  { apply imap_ext. intros i source _. unfold Optimizer_optimizeSingleFile.
    simpl. by rewrite Hno1. }
  rewrite Hp. unfold Optimizer_optimizeAllFiles. simpl. by rewrite Hno2.
Qed.

(** ** The constructor *)

Lemma effective_union (s d : gmap string Value) key :
  default VUndefined ((s ∪ d) !! key) = effective s d key.
Proof.
  unfold effective. rewrite lookup_union. by destruct (s !! key), (d !! key).
Qed.

(** X13: which passes the constructor constructs, read off the two option
    records: a pass of the table is constructed exactly when the effective
    value of [enabled] is truthy and so is the effective value of its key,
    the supplied value being the effective one whenever the key is supplied,
    also when it is falsy. *)
Theorem constructed_iff_effectively_enabled supplied m d s self key :
  heap m !! DEFAULT_OPTIONS = Some (ObjRecord d) →
  heap m !! supplied = Some (ObjRecord s) →
  constructors_read_only supplied →
  (Optimizer_constructor supplied m).1 = Returned self →
  key ∈ constructed (trace_of (Optimizer_constructor supplied) m) ↔
  key ∈ optimizations.*1 ∧
  truthy (effective s d "enabled") = true ∧ truthy (effective s d key) = true.
Proof.
  intros Hd Hs Hro Hr.
  destruct (Optimizer_constructor supplied m) as [r m'] eqn:H.
  simpl in Hr. subst r.
  destruct (Optimizer_constructor_read_only _ _ _ _ _ _ Hd Hs Hro H)
    as (_ & _ & _ & _ & _ & L & He & Hself).
  rewrite (trace_of_emitted (Optimizer_constructor supplied) m L)
    by (by rewrite H).
  destruct (Hself self eq_refl) as (_ & kinsts & -> & Hkeys & _).
  rewrite constructed_construct_events, Hkeys. unfold enabled_keys.
  rewrite effective_union.
  destruct (truthy (effective s d "enabled")).
  - rewrite list_elem_of_In, List.filter_In, <- list_elem_of_In, effective_union.
    split; [by intros [? ?]|by intros (? & _ & ?)].
  - split; [by intros ?%elem_of_nil|by intros (_ & ? & _)].
Qed.

(** When the constructor of a pass whose option is truthy always throws, the
    loop over the table throws (the constructors leaving the options object
    alone). *)
Lemma instantiate_throwing ls opts p table key C :
  opts ∈ ls →
  constructor_always_throws C →
  truthy (default VUndefined (p !! key)) = true →
  (∀ key' C', (key', C') ∈ table → preserves ls (C' opts)) →
  (key, C) ∈ table →
  ∀ single multi m r m',
    heap m !! opts = Some (ObjRecord p) →
    instantiate opts table single multi m = (r, m') →
    ∃ e, r = Thrown e.
Proof.
  intros Hopts Hthrows Hkey.
  induction table as [|[key0 C0] table IH]; intros Hpres Hin single multi m r m' Hp;
    [by apply elem_of_nil in Hin|].
  simpl. unfold bind at 1, get_prop, bind at 1, read_heap, ret at 1.
  unfold own_props. rewrite Hp. simpl.
  assert (Hpres' : ∀ key' C', (key', C') ∈ table → preserves ls (C' opts)).
  { intros key' C' Hin'. apply (Hpres key' C'). by right. }
  apply elem_of_cons in Hin as [[= <- <-]|Hin].
  - rewrite Hkey. intros H.
    apply bind_inv in H as [(o & m1 & H1 & _)|(e & _ & ->)]; [|eauto].
    apply new_Optimization_inv in H1 as (_ & _ & _ & _ & methods & Hm & _).
    destruct (Hthrows opts (heap m)) as [e He]. congruence.
  - destruct (truthy (default VUndefined (p !! key0))).
    + intros H. apply bind_inv in H as [(o & m1 & H1 & H)|(e & _ & ->)]; [|eauto].
      apply new_Optimization_inv in H1 as (_ & _ & Hh1 & _).
      eapply (IH Hpres' Hin _ _ m1); [|exact H].
      rewrite Hh1, <- Hp. by apply (Hpres key0 C0); [left|].
    + intros H. by eapply (IH Hpres' Hin).
Qed.

(** X14: when optimization is enabled and the option of a pass is truthy,
    a constructor of that pass that always throws makes the constructor of
    the optimizer throw: no optimizer is made. *)
Theorem throwing_pass_constructor_fails_construction supplied m d s key C :
  heap m !! DEFAULT_OPTIONS = Some (ObjRecord d) →
  heap m !! supplied = Some (ObjRecord s) →
  constructors_read_only supplied →
  (key, C) ∈ optimizations →
  constructor_always_throws C →
  truthy (effective s d "enabled") = true →
  truthy (effective s d key) = true →
  ∃ e, (Optimizer_constructor supplied m).1 = Thrown e.
Proof.
  intros Hd Hs Hro Hin Hthrows Hen Hkey.
  destruct (Optimizer_constructor supplied m) as [r m'] eqn:H. simpl.
  apply Optimizer_constructor_inv in H as (t & mt & Hmerge & _ & _ & H).
  rewrite (merge_options_run _ _ _ _ Hd Hs) in Hmerge. injection Hmerge as <- <-.
  simpl in H. unfold own_props in H. rewrite lookup_insert_eq in H.
  rewrite effective_union, Hen in H.
  destruct H as (r0 & Hinst & Hr).
  set (t := fresh (dom (heap m))) in *.
  assert (Ht : t ∈ [DEFAULT_OPTIONS; supplied; t])
    by (do 2 apply list_elem_of_further; apply list_elem_of_here).
  assert (Hkey' : truthy (default VUndefined ((s ∪ d) !! key)) = true)
    by (by rewrite effective_union).
  assert (Hpres : ∀ key' C', (key', C') ∈ optimizations →
            preserves [DEFAULT_OPTIONS; supplied; t] (C' t)).
  { intros key' C' Hin'. by apply (Hro key' C'). }
  destruct (instantiate_throwing _ t (s ∪ d) optimizations key C
              Ht Hthrows Hkey' Hpres Hin [] [] _ r0 m' (lookup_insert_eq _ _ _) Hinst)
    as [e ->].
  eauto.
Qed.


(** ** Calling optimize again *)

(** X16: [optimize] can be called again.  For an optimizer without passes
    whose sources reserialize, a second call, on the machine the first one
    left, returns the same content as the first, with a style mapping of its
    own. *)
Theorem optimize_without_passes_repeats choices1 choices2 self out m texts :
  singleFileOptimizations self = [] →
  multiFileOptimizations self = [] →
  Forall2 (λ source text, reserialized (heap m) out source = Some text)
          (sources self) texts →
  ∃ res1 m1 res2 m2,
    Optimizer_optimize choices1 self out m = (Returned res1, m1) ∧
    Optimizer_optimize choices2 self out m1 = (Returned res2, m2) ∧
    content (output res2) = content (output res1) ∧
    styleMapping res2 ≠ styleMapping res1.
Proof.
  intros Hno1 Hno2 Htexts.
  destruct (optimize_no_passes choices1 self out m texts Hno1 Hno2 Htexts)
    as (res1 & m1 & Hrun1 & Hc1 & Hsm1 & _).
  destruct (optimize_run _ _ _ _ _ _ Hrun1)
    as (_ & _ & _ & _ & _ & _ & _ & _ & _ & Hkeep).
  assert (Htexts1 : Forall2 (λ source text, reserialized (heap m1) out source = Some text)
                            (sources self) texts).
  { eapply Forall2_impl; [exact Htexts|]. intros source text.
    unfold reserialized, serialized. destruct (content source) as [|l]; [done|].
    destruct (heap m !! l) as [o|] eqn:Hl; [|done].
    rewrite Hkeep, Hl; [done|by rewrite Hl|].
    unfold passes_preserve. rewrite Hno1, Hno2.
    split; intros o' f Ho'; by apply elem_of_nil in Ho'. }
  destruct (optimize_no_passes choices2 self out m1 texts Hno1 Hno2 Htexts1)
    as (res2 & m2 & Hrun2 & Hc2 & _ & _).
  exists res1, m1, res2, m2. split; [done|]. split; [done|].
  split; [congruence|].
  destruct (optimize_returned _ _ _ _ _ _ Hrun2) as (_ & _ & _ & _ & _ & _ & _ & Hsm2).
  rewrite Hsm2. intros Heq.
  apply (is_fresh (dom (heap m1))). rewrite Heq. apply elem_of_dom. eauto.
Qed.

End MoreProperties.

(** * The small instance, run again *)

Section MoreExamples.

Import Demo.

#[local] Existing Instance types.
#[local] Existing Instance collaborators.


(** X2, on the instance: two sources, the second settling first. *)
Lemma passes_run_in_group_order_witness :
  ∃ res L,
    (Optimizer_optimize [1] (two_sources all_on) "out.css" after_all_on).1
    = Returned res ∧
    emitted after_all_on
      (Optimizer_optimize [1] (two_sources all_on) "out.css" after_all_on).2 L ∧
    List.filter is_phase2 L
    = [EvAllFiles 1 6 7; EvAllFilesDone 1; EvAllFiles 2 6 7; EvAllFilesDone 2].
Proof.
  assert (Hres : ∃ res, (Optimizer_optimize [1] (two_sources all_on) "out.css"
                           after_all_on).1 = Returned res) by (vm_compute; eauto).
  destruct Hres as [res Hres].
  destruct (passes_run_in_group_order [1] (two_sources all_on) "out.css"
              after_all_on res Hres) as (L & He & H2 & _).
  exists res, L. split; [exact Hres|]. split; [exact He|].
  rewrite H2. vm_compute. reflexivity.
Defined.

(** X6, on the instance: the second of three sources does not parse. *)
Lemma unparsable_source_reaches_no_pass_witness :
  sources (three_sources all_on) !! 1 = Some broken_css ∧
  content broken_css = ContentString "}" ∧
  postcss_process "}" (processOpts_for broken_css) = Thrown CssSyntaxError ∧
  ∃ L, emitted after_all_on
         (Optimizer_optimize [1] (three_sources all_on) "out.css" after_all_on).2 L ∧
       List.filter (of_file 1) L = [EvParse 1].
Proof.
  assert (H1 : sources (three_sources all_on) !! 1 = Some broken_css)
    by (vm_compute; reflexivity).
  assert (H2 : content broken_css = ContentString "}") by reflexivity.
  assert (H3 : postcss_process "}" (processOpts_for broken_css) = Thrown CssSyntaxError)
    by reflexivity.
  split; [exact H1|]. split; [exact H2|]. split; [exact H3|].
  exact (unparsable_source_reaches_no_pass [1] (three_sources all_on) "out.css"
           after_all_on 1 broken_css "}" CssSyntaxError H1 H2 H3).
Defined.

(** X7, on the instance: the run rejects, and the third source is parsed and
    optimized all the same. *)
Lemma rejection_does_not_stop_other_files_witness :
  single_file_passes_return (three_sources all_on) ∧
  sources (three_sources all_on) !! 2 = Some b_css ∧
  parses b_css ∧
  (Optimizer_optimize [1] (three_sources all_on) "out.css" after_all_on).1
  = Thrown CssSyntaxError ∧
  ∃ L sm cache file,
    emitted after_all_on
      (Optimizer_optimize [1] (three_sources all_on) "out.css" after_all_on).2 L ∧
    parsed_from b_css file ∧
    List.filter (of_file 2) L
    = parse_events 2 b_css file ++
      flat_map (single_events sm cache 2)
               (singleFileOptimizations (three_sources all_on)).
Proof.
  assert (H1 : sources (three_sources all_on) !! 2 = Some b_css)
    by (vm_compute; reflexivity).
  assert (H2 : parses b_css) by (vm_compute; eauto).
  split; [exact demo_single_file_passes_return|]. split; [exact H1|].
  split; [exact H2|]. split; [vm_compute; reflexivity|].
  destruct (rejection_does_not_stop_other_files [1] (three_sources all_on) "out.css"
              after_all_on 2 b_css demo_single_file_passes_return H1 H2)
    as (L & He & file & Hpf & Hfilter).
  exists L. eexists _, _, file. split; [exact He|]. split; [exact Hpf|exact Hfilter].
Defined.

(** X16, on the instance: the disabled optimizer, called twice. *)
Lemma optimize_without_passes_repeats_witness :
  singleFileOptimizations (two_sources disabled) = [] ∧
  multiFileOptimizations (two_sources disabled) = [] ∧
  Forall2 (λ source text, reserialized (heap after_disabled) "out.css" source = Some text)
          (sources (two_sources disabled)) ["a{}"; "b{}"] ∧
  ∃ res1 m1 res2 m2,
    Optimizer_optimize [1] (two_sources disabled) "out.css" after_disabled
    = (Returned res1, m1) ∧
    Optimizer_optimize [] (two_sources disabled) "out.css" m1 = (Returned res2, m2) ∧
    content (output res2) = content (output res1) ∧
    styleMapping res2 ≠ styleMapping res1.
Proof.
  assert (H1 : singleFileOptimizations (two_sources disabled) = [])
    by (vm_compute; reflexivity).
  assert (H2 : multiFileOptimizations (two_sources disabled) = [])
    by (vm_compute; reflexivity).
  assert (H3 : Forall2 (λ source text,
                  reserialized (heap after_disabled) "out.css" source = Some text)
                 (sources (two_sources disabled)) ["a{}"; "b{}"]).
  { assert (Hsrc : sources (two_sources disabled) = [a_css; b_css])
      by (vm_compute; reflexivity).
    rewrite Hsrc.
    constructor; [reflexivity|]. constructor; [reflexivity|]. constructor. }
  split; [exact H1|]. split; [exact H2|]. split; [exact H3|].
  exact (optimize_without_passes_repeats [1] [] (two_sources disabled) "out.css"
           after_disabled ["a{}"; "b{}"] H1 H2 H3).
Defined.

(** X12, on the instance: an analysis added to the disabled optimizer. *)
Lemma analyses_matter_to_passes_only_witness :
  singleFileOptimizations (two_sources disabled) = [] ∧
  multiFileOptimizations (two_sources disabled) = [] ∧
  Optimizer_optimize [1] (addAnalysis (two_sources disabled) tt) "out.css" after_disabled
  = Optimizer_optimize [1] (two_sources disabled) "out.css" after_disabled.
Proof.
  assert (H1 : singleFileOptimizations (two_sources disabled) = [])
    by (vm_compute; reflexivity).
  assert (H2 : multiFileOptimizations (two_sources disabled) = [])
    by (vm_compute; reflexivity).
  split; [exact H1|]. split; [exact H2|].
  exact (analyses_matter_to_passes_only [1] (two_sources disabled) tt "out.css"
           after_disabled H1 H2).
Defined.


End MoreExamples.

(** * The second instance, run *)

Section MoreExamples2.

Import Demo2.

#[local] Existing Instance Demo.types.
#[local] Existing Instance collaborators.

Lemma demo2_constructors_read_only supplied : constructors_read_only supplied.
Proof.
  intros key C o Hin h l _. simpl in Hin.
  repeat (apply elem_of_cons in Hin as [[= _ ->]|Hin]; [done|]).
  by inversion Hin.
Qed.

(** The pass of [lint_on] writes nothing. *)
Lemma lint_on_preserves (file : CssFile) l :
  passes_preserve (addSource lint_on file) l.
Proof.
  unfold passes_preserve. simpl. split; intros o f Ho Hf.
  - vm_compute in Ho. apply elem_of_cons in Ho as [->|Ho]; [|by inversion Ho].
    injection Hf as <-. by intros sm file' an cache h l' _.
  - vm_compute in Ho. by inversion Ho.
Qed.

Lemma file_fails_has_throwing_pass file :
  ∃ o, o ∈ singleFileOptimizations (addSource file_fails file) ∧
       single_pass_always_throws o.
Proof.
  exists {| opt_id := 1; optimizeSingleFile := Some failing_method;
            optimizeAllFiles := None |}.
  split.
  - assert (Hs : singleFileOptimizations (addSource file_fails file)
                 = [ {| opt_id := 0; optimizeSingleFile := Some lint_method;
                        optimizeAllFiles := None |};
                     {| opt_id := 1; optimizeSingleFile := Some failing_method;
                        optimizeAllFiles := None |} ])
      by (vm_compute; reflexivity).
    rewrite Hs. apply list_elem_of_further, list_elem_of_here.
  - intros sm file' an cache h. by exists PassError.
Qed.

Lemma all_fails_has_throwing_pass :
  ∃ o, o ∈ multiFileOptimizations all_fails ∧ multi_pass_always_throws o.
Proof.
  exists {| opt_id := 1; optimizeSingleFile := None;
            optimizeAllFiles := Some failing_all_method |}.
  split.
  - assert (Hs : multiFileOptimizations all_fails
                 = [ {| opt_id := 1; optimizeSingleFile := None;
                        optimizeAllFiles := Some failing_all_method |} ])
      by (vm_compute; reflexivity).
    rewrite Hs. apply list_elem_of_here.
  - intros sm files an cache h. by exists PassError.
Qed.

(** X3, on the instance: the default options are what they were after a
    run. *)
Lemma optimize_writes_through_passes_only_witness :
  is_Some (heap after_lint_on !! 1%positive) ∧
  passes_preserve (addSource lint_on Demo.a_css) 1%positive ∧
  heap (Optimizer_optimize [] (addSource lint_on Demo.a_css) "out.css"
          after_lint_on).2 !! 1%positive
  = heap after_lint_on !! 1%positive.
Proof.
  assert (H1 : is_Some (heap after_lint_on !! 1%positive))
    by (exists (ObjRecord default_props); vm_compute; reflexivity).
  split; [exact H1|].
  split; [exact (lint_on_preserves Demo.a_css 1%positive)|].
  exact (optimize_writes_through_passes_only [] (addSource lint_on Demo.a_css)
           "out.css" after_lint_on 1%positive H1
           (lint_on_preserves Demo.a_css 1%positive)).
Defined.

(** X4, on the instance: the second single-file pass throws. *)
Lemma throwing_single_file_pass_rejects_witness :
  sources (addSource file_fails Demo.a_css) ≠ [] ∧
  (∃ o, o ∈ singleFileOptimizations (addSource file_fails Demo.a_css) ∧
        single_pass_always_throws o) ∧
  (Optimizer_optimize [] (addSource file_fails Demo.a_css) "out.css"
     after_file_fails).1 = Thrown PassError ∧
  ∃ e L,
    (Optimizer_optimize [] (addSource file_fails Demo.a_css) "out.css"
       after_file_fails).1 = Thrown e ∧
    emitted after_file_fails
      (Optimizer_optimize [] (addSource file_fails Demo.a_css) "out.css"
         after_file_fails).2 L ∧
    Forall (λ ev, is_phase2 ev = false ∧ is_concat_add ev = false) L.
Proof.
  assert (H1 : sources (addSource file_fails Demo.a_css) ≠ []).
  { intros H. vm_compute in H. discriminate H. }
  split; [exact H1|].
  split; [exact (file_fails_has_throwing_pass Demo.a_css)|].
  split; [vm_compute; reflexivity|].
  exact (throwing_single_file_pass_rejects [] (addSource file_fails Demo.a_css)
           "out.css" after_file_fails H1 (file_fails_has_throwing_pass Demo.a_css)).
Defined.

(** X5, on the instance: the cross-file pass throws, no source added. *)
Lemma throwing_cross_file_pass_rejects_witness :
  (∃ o, o ∈ multiFileOptimizations all_fails ∧ multi_pass_always_throws o) ∧
  sources all_fails = [] ∧
  ∃ e L,
    (Optimizer_optimize [] all_fails "out.css" after_all_fails).1 = Thrown e ∧
    emitted after_all_fails
      (Optimizer_optimize [] all_fails "out.css" after_all_fails).2 L ∧
    Forall (λ ev, is_concat_add ev = false) L.
Proof.
  split; [exact all_fails_has_throwing_pass|].
  split; [vm_compute; reflexivity|].
  exact (throwing_cross_file_pass_rejects [] all_fails "out.css" after_all_fails
           all_fails_has_throwing_pass).
Defined.

(** X8, on the instance: the only source is a parsed handle. *)
Lemma parsed_handles_skip_the_parser_witness :
  (∀ source, source ∈ sources (addSource lint_on handle_css) →
             ∃ r, content source = ContentResult r) ∧
  (∃ res, (Optimizer_optimize [] (addSource lint_on handle_css) "out.css"
             after_lint_on).1 = Returned res ∧
          content (output res) = ContentString "h{}") ∧
  ∃ L, emitted after_lint_on
         (Optimizer_optimize [] (addSource lint_on handle_css) "out.css"
            after_lint_on).2 L ∧
       Forall (λ ev, is_parser_event ev = false) L.
Proof.
  assert (H1 : ∀ source, source ∈ sources (addSource lint_on handle_css) →
                         ∃ r, content source = ContentResult r).
  { assert (Hs : sources (addSource lint_on handle_css) = [handle_css])
      by (vm_compute; reflexivity).
    rewrite Hs. intros source Hin.
    apply elem_of_cons in Hin as [->|Hin]; [|by inversion Hin].
    exists parsed_tree. reflexivity. }
  split; [exact H1|].
  split; [vm_compute; eexists; split; reflexivity|].
  exact (parsed_handles_skip_the_parser [] (addSource lint_on handle_css) "out.css"
           after_lint_on H1).
Defined.


(** X13, on the instance: [lint] is on by default and supplied as [0]. *)
Lemma constructed_iff_effectively_enabled_witness :
  heap start !! DEFAULT_OPTIONS = Some (ObjRecord default_props) ∧
  heap start !! nolint_options = Some (ObjRecord nolint_props) ∧
  constructors_read_only nolint_options ∧
  (∃ self, (Optimizer_constructor nolint_options start).1 = Returned self) ∧
  truthy (effective nolint_props default_props "lint") = false ∧
  ("lint" ∉ constructed (trace_of (Optimizer_constructor nolint_options) start)).
Proof.
  assert (H1 : heap start !! DEFAULT_OPTIONS = Some (ObjRecord default_props))
    by reflexivity.
  assert (H2 : heap start !! nolint_options = Some (ObjRecord nolint_props))
    by reflexivity.
  assert (H3 : ∃ self, (Optimizer_constructor nolint_options start).1 = Returned self)
    by (vm_compute; eauto).
  assert (H4 : truthy (effective nolint_props default_props "lint") = false)
    by (vm_compute; reflexivity).
  split; [exact H1|]. split; [exact H2|].
  split; [exact (demo2_constructors_read_only nolint_options)|]. split; [exact H3|].
  split; [exact H4|].
  destruct H3 as [self H3]. intros Hin.
  apply (constructed_iff_effectively_enabled nolint_options start default_props
           nolint_props self "lint" H1 H2
           (demo2_constructors_read_only nolint_options) H3) in Hin as (_ & _ & Hin).
  rewrite H4 in Hin. discriminate Hin.
Defined.

(** X14, on the instance: the pass that cannot be constructed is enabled. *)
Lemma throwing_pass_constructor_fails_construction_witness :
  heap start !! DEFAULT_OPTIONS = Some (ObjRecord default_props) ∧
  heap start !! unbuildable_options = Some (ObjRecord unbuildable_props) ∧
  constructors_read_only unbuildable_options ∧
  ("unbuildable", Unbuildable) ∈ optimizations ∧
  constructor_always_throws Unbuildable ∧
  truthy (effective unbuildable_props default_props "enabled") = true ∧
  truthy (effective unbuildable_props default_props "unbuildable") = true ∧
  ∃ e, (Optimizer_constructor unbuildable_options start).1 = Thrown e.
Proof.
  assert (H1 : heap start !! DEFAULT_OPTIONS = Some (ObjRecord default_props))
    by reflexivity.
  assert (H2 : heap start !! unbuildable_options = Some (ObjRecord unbuildable_props))
    by reflexivity.
  assert (H3 : ("unbuildable", Unbuildable) ∈ optimizations)
    by (do 3 apply list_elem_of_further; apply list_elem_of_here).
  assert (H4 : constructor_always_throws Unbuildable)
    by (intros o h; exists PassError; reflexivity).
  assert (H5 : truthy (effective unbuildable_props default_props "enabled") = true)
    by (vm_compute; reflexivity).
  assert (H6 : truthy (effective unbuildable_props default_props "unbuildable") = true)
    by (vm_compute; reflexivity).
  split; [exact H1|]. split; [exact H2|].
  split; [exact (demo2_constructors_read_only unbuildable_options)|].
  split; [exact H3|]. split; [exact H4|]. split; [exact H5|]. split; [exact H6|].
  exact (throwing_pass_constructor_fails_construction unbuildable_options start
           default_props unbuildable_props "unbuildable" Unbuildable H1 H2
           (demo2_constructors_read_only unbuildable_options) H3 H4 H5 H6).
Defined.

End MoreExamples2.
